(** * Markdown link engine of the retrieval agent sample (utils.ts)

    A shallow embedding of [Utils.extractMarkdownLinks] and
    [Utils.replaceMarkdownLinksWithOrder], together with the part of the
    ECMAScript regular-expression semantics their patterns rely on
    (backtracking with priorities, greedy and lazy quantifiers, capture
    groups, a back-reference, line anchors and a one-character negative
    look-behind).

    Strings are sequences of UTF-16 code units, as in the host language. *)

From Stdlib Require Import List NArith Arith Lia Bool String Ascii DecimalNat.
From stdpp Require Import base option list gmap.
Import ListNotations.

Local Open Scope nat_scope.

(** ** Host strings *)

Module JsString.

(** A code unit, and a string of code units. *)
Abbreviation char := N (only parsing).
Abbreviation jsstring := (list N) (only parsing).

(** A literal of the source text, code unit by code unit. *)
Definition ch (a : ascii) : char := N_of_ascii a.
Definition str (s : string) : jsstring := map N_of_ascii (list_ascii_of_string s).

Definition oneOf (s : jsstring) (c : char) : bool := existsb (N.eqb c) s.
Definition noneOf (s : jsstring) (c : char) : bool := negb (oneOf s c).
Definition inRange (lo hi : char) (c : char) : bool := (lo <=? c)%N && (c <=? hi)%N.

(** [LineTerminator]: LF, CR, LS, PS. *)
Definition isLineTerminator (c : char) : bool :=
  oneOf [10; 13; 8232; 8233]%N c.

(** [\s]: WhiteSpace and LineTerminator code units. *)
Definition isWhiteSpace (c : char) : bool :=
  oneOf [9; 10; 11; 12; 13; 32; 160; 5760; 8232; 8233; 8239; 8287; 12288; 65279]%N c
  || inRange 8192%N 8202%N c.

Definition isAsciiLetter (c : char) : bool :=
  inRange (ch "a") (ch "z") c || inRange (ch "A") (ch "Z") c.
Definition isAsciiDigit (c : char) : bool := inRange (ch "0") (ch "9") c.

(** [String.prototype.trim]. *)
Fixpoint trimStart (s : jsstring) : jsstring :=
  match s with
  | c :: s' => if isWhiteSpace c then trimStart s' else s
  | [] => []
  end.
Definition trimEnd (s : jsstring) : jsstring := rev (trimStart (rev s)).
Definition trim (s : jsstring) : jsstring := trimEnd (trimStart s).

(** [s.slice(a, b)] for non-negative [a] and [b]: both are clamped to the
    length, and the result is empty when [b <= a]. *)
Definition slice (s : jsstring) (a b : nat) : jsstring := firstn (b - a) (skipn a s).
(** [s.slice(a)]. *)
Definition sliceFrom (s : jsstring) (a : nat) : jsstring := skipn a s.

(** [s.startsWith(c)] for a one-character needle. *)
Definition startsWith (c : char) (s : jsstring) : bool :=
  match s with
  | x :: _ => N.eqb x c
  | [] => false
  end.

(** [s.indexOf(c)] for a one-character needle; [None] stands for -1. *)
Fixpoint indexOf (c : char) (s : jsstring) : option nat :=
  match s with
  | [] => None
  | x :: s' => if N.eqb x c then Some 0 else option_map S (indexOf c s')
  end.

(** [s.replace(/[<>]/g, "")]. *)
Definition removeAngles (s : jsstring) : jsstring :=
  List.filter (noneOf [ch "<"; ch ">"]) s.

(** [s.split(/\s+/)[0]]: the text before the first run of white space,
    the whole string when there is none (and the empty string for an
    empty [s], whose split is the one-element array of the empty string). *)
Fixpoint splitWsFirst (s : jsstring) : jsstring :=
  match s with
  | [] => []
  | c :: s' => if isWhiteSpace c then [] else c :: splitWsFirst s'
  end.

(** Decimal digits of a number, as the template literal prints them. *)
Fixpoint digitsOfUint (d : Decimal.uint) : jsstring :=
  match d with
  | Decimal.Nil => []
  | Decimal.D0 d => ch "0" :: digitsOfUint d
  | Decimal.D1 d => ch "1" :: digitsOfUint d
  | Decimal.D2 d => ch "2" :: digitsOfUint d
  | Decimal.D3 d => ch "3" :: digitsOfUint d
  | Decimal.D4 d => ch "4" :: digitsOfUint d
  | Decimal.D5 d => ch "5" :: digitsOfUint d
  | Decimal.D6 d => ch "6" :: digitsOfUint d
  | Decimal.D7 d => ch "7" :: digitsOfUint d
  | Decimal.D8 d => ch "8" :: digitsOfUint d
  | Decimal.D9 d => ch "9" :: digitsOfUint d
  end.
Definition numberToString (n : nat) : jsstring := digitsOfUint (Nat.to_uint n).

End JsString.
Import JsString.

(** ** Regular expressions *)

Module RegExp.

(** The fragment of the pattern language the source uses.  Quantifiers are
    only ever applied to a one-character atom there ([Repeat]), except
    for one optional non-capturing group, which is [Alt r Empty]. *)
Inductive regex : Type :=
| Empty
| Char (c : char)
| Class (p : char -> bool)
| Seq (r1 r2 : regex)
| Alt (r1 r2 : regex)
| Repeat (greedy : bool) (lo : nat) (hi : option nat) (p : char -> bool)
| Group (n : nat) (r : regex)
| Backref (n : nat)
| LineStart                 (* ^ under the m flag *)
| LineEnd                   (* $ under the m flag *)
| InputStart                (* ^ without the m flag *)
| InputEnd                  (* $ without the m flag *)
| NotPrecededBy (c : char). (* (?<!c) *)

Definition captures := list (nat * jsstring).

Fixpoint getCapture (n : nat) (cs : captures) : option jsstring :=
  match cs with
  | [] => None
  | (i, s) :: cs' => if Nat.eqb i n then Some s else getCapture n cs'
  end.

(** A position in the input: the code units already passed (nearest
    first), the ones still ahead, and the groups captured on the way. *)
Record mstate := MState { seen : jsstring; rest : jsstring; caps : captures }.

Definition position (st : mstate) : nat := length (seen st).

Definition step (st : mstate) (c : char) (rest' : jsstring) : mstate :=
  MState (c :: seen st) rest' (caps st).

Definition atLineStart (st : mstate) : bool :=
  match seen st with
  | [] => true
  | c :: _ => isLineTerminator c
  end.
Definition atLineEnd (st : mstate) : bool :=
  match rest st with
  | [] => true
  | c :: _ => isLineTerminator c
  end.
Definition atInputStart (st : mstate) : bool :=
  match seen st with [] => true | _ :: _ => false end.
Definition atInputEnd (st : mstate) : bool :=
  match rest st with [] => true | _ :: _ => false end.
Definition notPrecededBy (c : char) (st : mstate) : bool :=
  match seen st with
  | [] => true
  | x :: _ => negb (N.eqb x c)
  end.

Fixpoint isPrefix (s t : jsstring) : bool :=
  match s, t with
  | [], _ => true
  | x :: s', y :: t' => N.eqb x y && isPrefix s' t'
  | _ :: _, [] => false
  end.

Definition orElse {A} (a : option A) (b : unit -> option A) : option A :=
  match a with
  | Some x => Some x
  | None => b tt
  end.

Definition canTake (hi : option nat) : bool :=
  match hi with
  | Some 0 => false
  | _ => true
  end.

Section Matcher.
Context {A : Type}.

(** [p{lo,hi}] (greedy) or [p{lo,hi}?] (lazy) followed by [k]. *)
Fixpoint repeatClass (greedy : bool) (p : char -> bool) (lo : nat) (hi : option nat)
    (sn rs : jsstring) (k : jsstring -> jsstring -> option A) : option A :=
  let stop := fun _ : unit => match lo with 0 => k sn rs | S _ => None end in
  match rs with
  | c :: rs' =>
      if p c && canTake hi then
        if greedy
        then orElse (repeatClass greedy p (pred lo) (option_map pred hi) (c :: sn) rs' k) stop
        else orElse (stop tt)
               (fun _ => repeatClass greedy p (pred lo) (option_map pred hi) (c :: sn) rs' k)
      else stop tt
  | [] => stop tt
  end.

(** The backtracking matcher, in continuation-passing style: [run r st k]
    is the first way, in the priority order of the pattern, of matching
    [r] from [st] such that the continuation [k] succeeds afterwards. *)
Fixpoint run (r : regex) (st : mstate) (k : mstate -> option A) : option A :=
  match r with
  | Empty => k st
  | Char c =>
      match rest st with
      | x :: rs => if N.eqb x c then k (step st x rs) else None
      | [] => None
      end
  | Class p =>
      match rest st with
      | x :: rs => if p x then k (step st x rs) else None
      | [] => None
      end
  | Seq r1 r2 => run r1 st (fun st' => run r2 st' k)
  | Alt r1 r2 => orElse (run r1 st k) (fun _ => run r2 st k)
  | Repeat greedy lo hi p =>
      repeatClass greedy p lo hi (seen st) (rest st)
        (fun sn rs => k (MState sn rs (caps st)))
  | Group n r1 =>
      run r1 st (fun st' =>
        k (MState (seen st') (rest st')
             ((n, firstn (position st' - position st) (rest st)) :: caps st')))
  | Backref n =>
      match getCapture n (caps st) with
      | None => k st
      | Some s =>
          if isPrefix s (rest st)
          then k (MState (rev s ++ seen st) (skipn (length s) (rest st)) (caps st))
          else None
      end
  | LineStart => if atLineStart st then k st else None
  | LineEnd => if atLineEnd st then k st else None
  | InputStart => if atInputStart st then k st else None
  | InputEnd => if atInputEnd st then k st else None
  | NotPrecededBy c => if notPrecededBy c st then k st else None
  end.
End Matcher.

(** A successful match, as [exec] and [matchAll] report it: [m.index],
    [m[0]] and the groups that took part. *)
Record rmatch := RMatch { index : nat; text : jsstring; groups : captures }.

Definition group (n : nat) (m : rmatch) : option jsstring := getCapture n (groups m).
Definition matchEnd (m : rmatch) : nat := index m + length (text m).

(** One attempt at the position [(sn, rs)]. *)
Definition matchAt (re : regex) (sn rs : jsstring) : option rmatch :=
  match run re (MState sn rs []) Some with
  | Some st' => Some (RMatch (length sn) (firstn (position st' - length sn) rs) (caps st'))
  | None => None
  end.

(** [str.matchAll(re)] for a global [re], scanning from the position
    [(sn, rs)]; [skip] counts the code units between that position and
    [lastIndex].  After a match [lastIndex] is its end, moved one further
    when the match was empty.  A match never runs past the input, so the
    scan is never asked to skip past its end. *)
Fixpoint scanAll (re : regex) (skip : nat) (sn rs : jsstring) : list rmatch :=
  match skip with
  | S n =>
      match rs with
      | c :: rs' => scanAll re n (c :: sn) rs'
      | [] => []
      end
  | 0 =>
      match matchAt re sn rs with
      | Some m =>
          m :: match rs with
               | c :: rs' => scanAll re (pred (length (text m))) (c :: sn) rs'
               | [] => []
               end
      | None =>
          match rs with
          | c :: rs' => scanAll re 0 (c :: sn) rs'
          | [] => []
          end
      end
  end.

Definition matchAll (re : regex) (s : jsstring) : list rmatch := scanAll re 0 [] s.

(** [re.test(s)] for a non-global [re]: is there a match anywhere. *)
Fixpoint searchFrom (re : regex) (sn rs : jsstring) : option rmatch :=
  match matchAt re sn rs with
  | Some m => Some m
  | None =>
      match rs with
      | c :: rs' => searchFrom re (c :: sn) rs'
      | [] => None
      end
  end.
Definition test (re : regex) (s : jsstring) : bool :=
  match searchFrom re [] s with Some _ => true | None => false end.

(** Pattern-building shorthands. *)
Fixpoint seqs (rs : list regex) : regex :=
  match rs with
  | [] => Empty
  | [r] => r
  | r :: rs' => Seq r (seqs rs')
  end.
Definition lit (s : jsstring) : regex := seqs (map Char s).
Definition star (p : char -> bool) : regex := Repeat true 0 None p.
Definition plus (p : char -> bool) : regex := Repeat true 1 None p.
Definition lazyStar (p : char -> bool) : regex := Repeat false 0 None p.
Definition optChar (c : char) : regex := Repeat true 0 (Some 1) (N.eqb c).
Definition optional (r : regex) : regex := Alt r Empty.
Definition dot (c : char) : bool := negb (isLineTerminator c).
Definition anyChar (c : char) : bool := true.

End RegExp.
Import RegExp.

(** ** The link engine *)

Module Utils.

Record MarkdownLink := { title : jsstring; url : jsstring }.

(** What a call can come to: a value, a [TypeError] raised by a method
    call on [undefined], or an [exec] loop that never gets past a match. *)
Inductive outcome (A : Type) : Type :=
| Ok (a : A)
| TypeError
| Diverges.
Arguments Ok {A} a.
Arguments TypeError {A}.
Arguments Diverges {A}.

#[global] Instance outcome_bind : MBind outcome := fun A B f x =>
  match x with
  | Ok a => f a
  | TypeError => TypeError
  | Diverges => Diverges
  end.

(** [m[n].method()]: a [TypeError] when the group did not take part. *)
Definition required (g : option jsstring) : outcome jsstring :=
  match g with
  | Some s => Ok s
  | None => TypeError
  end.

(** [while ((m = re.exec(s)) !== null) body], for a global [re], from the
    position [(sn, rs)] with [lastIndex] a further [skip] code units on.
    [exec] sets [lastIndex] to the end of the match and nothing else moves
    it, so after an empty match the loop finds the same match for ever. *)
Fixpoint execLoop {S : Type} (re : regex) (body : rmatch -> S -> outcome S)
    (skip : nat) (sn rs : jsstring) (s : S) : outcome S :=
  match skip with
  | S n =>
      match rs with
      | c :: rs' => execLoop re body n (c :: sn) rs' s
      | [] => Ok s
      end
  | 0 =>
      match matchAt re sn rs with
      | Some m =>
          s' ← body m s;
          match length (text m) with
          | 0 => Diverges
          | S n =>
              match rs with
              | c :: rs' => execLoop re body n (c :: sn) rs' s'
              | [] => Ok s'
              end
          end
      | None =>
          match rs with
          | c :: rs' => execLoop re body 0 (c :: sn) rs' s
          | [] => Ok s
          end
      end
  end.

(** *** Patterns of the extractor *)

Definition quoteChar : char := 34%N.

(** [/^\s{0,3}\[([^\]\r\n]+)\]:\s*<?([^\s>]+)>?(?:\s+["'(].*?["')])?\s*$/gim].
    The [i] flag changes nothing: the pattern has no cased character, and
    no code unit folds onto one of its punctuation or white-space members. *)
Definition refDefRe : regex :=
  seqs [ LineStart; Repeat true 0 (Some 3) isWhiteSpace; Char (ch "[");
         Group 1 (plus (noneOf [ch "]"; 13; 10]%N)); Char (ch "]"); Char (ch ":");
         star isWhiteSpace; optChar (ch "<");
         Group 2 (plus (fun c => negb (isWhiteSpace c || N.eqb c (ch ">"))));
         optChar (ch ">");
         optional (seqs [ plus isWhiteSpace;
                          Class (oneOf [quoteChar; ch "'"; ch "("]);
                          lazyStar dot;
                          Class (oneOf [quoteChar; ch "'"; ch ")"]) ]);
         star isWhiteSpace; LineEnd ].

(** The pattern, spaced out,
    [/ (?<!!) \[ (?<text> [^\]]* ) \] \( (?<inside> [^)]+ ) \) | ! \[ (?<img> [^\]]* ) \] \( [^)]+ \) /g];
    [text], [inside] and [img] are the groups 1, 2 and 3. *)
Definition inlineLinkRe : regex :=
  Alt (seqs [ NotPrecededBy (ch "!"); Char (ch "[");
              Group 1 (star (noneOf [ch "]"])); Char (ch "]"); Char (ch "(");
              Group 2 (plus (noneOf [ch ")"])); Char (ch ")") ])
      (seqs [ Char (ch "!"); Char (ch "[");
              Group 3 (star (noneOf [ch "]"])); Char (ch "]"); Char (ch "(");
              plus (noneOf [ch ")"]); Char (ch ")") ]).

(** [/<([a-zA-Z][a-zA-Z0-9+.-]*:[^>\s]+)>/g]. *)
Definition schemeChar (c : char) : bool :=
  isAsciiLetter c || isAsciiDigit c || oneOf [ch "+"; ch "."; ch "-"] c.
Definition autolinkRe : regex :=
  seqs [ Char (ch "<");
         Group 1 (seqs [ Class isAsciiLetter; star schemeChar; Char (ch ":");
                         plus (fun c => negb (N.eqb c (ch ">") || isWhiteSpace c)) ]);
         Char (ch ">") ].

(** The pattern, spaced out,
    [/ (?<!!) \[ (?<text> [^\]]+ ) \] \[ (?<id> [^\]\r\n]* ) \] | ! \[ (?<img2> [^\]]+ ) \] \[ [^\]\r\n]* \] /g];
    [text], [id] and [img2] are the groups 1, 2 and 3. *)
Definition refLinkRe : regex :=
  Alt (seqs [ NotPrecededBy (ch "!"); Char (ch "[");
              Group 1 (plus (noneOf [ch "]"])); Char (ch "]"); Char (ch "[");
              Group 2 (star (noneOf [ch "]"; 13; 10]%N)); Char (ch "]") ])
      (seqs [ Char (ch "!"); Char (ch "[");
              Group 3 (plus (noneOf [ch "]"])); Char (ch "]"); Char (ch "[");
              star (noneOf [ch "]"; 13; 10]%N); Char (ch "]") ]).

(** *** Patterns of the rewriter *)

(** [/(```|~~~)[^\n]*\n[\s\S]*?\n\1/g]. *)
Definition fencedRE : regex :=
  seqs [ Group 1 (Alt (lit (str "```")) (lit (str "~~~")));
         star (noneOf [10%N]); Char 10%N; lazyStar anyChar; Char 10%N; Backref 1 ].

(** [/`[^`\n]*`/g]. *)
Definition inlineCodeRE : regex :=
  seqs [ Char (ch "`"); star (noneOf [ch "`"; 10%N]); Char (ch "`") ].

(** [/^\s{0,3}\[[^\]\r\n]+\]:[^\n]*$/gm]. *)
Definition defLineRE : regex :=
  seqs [ LineStart; Repeat true 0 (Some 3) isWhiteSpace; Char (ch "[");
         plus (noneOf [ch "]"; 13; 10]%N); Char (ch "]"); Char (ch ":");
         star (noneOf [10%N]); LineEnd ].

(** [/!?\[[^\]]*\]\([^)]+\)/g]. *)
Definition inlineLinkRE : regex :=
  seqs [ optChar (ch "!"); Char (ch "["); star (noneOf [ch "]"]); Char (ch "]");
         Char (ch "("); plus (noneOf [ch ")"]); Char (ch ")") ].

(** [/!?\[[^\]]+\]\[[^\]\r\n]*\]/g]. *)
Definition refLinkRE : regex :=
  seqs [ optChar (ch "!"); Char (ch "["); plus (noneOf [ch "]"]); Char (ch "]");
         Char (ch "["); star (noneOf [ch "]"; 13; 10]%N); Char (ch "]") ].

(** [/<([^>\s]+)>/g]. *)
Definition autolinkRE : regex :=
  seqs [ Char (ch "<");
         Group 1 (plus (fun c => negb (N.eqb c (ch ">") || isWhiteSpace c)));
         Char (ch ">") ].

(** [/^[a-zA-Z][a-zA-Z0-9+.-]*:[^\s]+$/]. *)
Definition looksLikeUrlRE : regex :=
  seqs [ InputStart; Class isAsciiLetter; star schemeChar; Char (ch ":");
         plus (fun c => negb (isWhiteSpace c)); InputEnd ].

(** [/^[^@\s]+@[^@\s]+\.[^@\s]+$/]. *)
Definition emailChar (c : char) : bool := negb (N.eqb c (ch "@") || isWhiteSpace c).
Definition looksLikeEmailRE : regex :=
  seqs [ InputStart; plus emailChar; Char (ch "@"); plus emailChar; Char (ch ".");
         plus emailChar; InputEnd ].

(** *** extractMarkdownLinks *)

Section Extractor.
(** [String.prototype.toLowerCase], a builtin of the host. *)
Variable toLowerCase : jsstring -> jsstring.

(** The helper [push]: an empty [url] is falsy and adds nothing. *)
Definition push (title url : jsstring) (results : list MarkdownLink) : list MarkdownLink :=
  match url with
  | [] => results
  | _ :: _ => results ++ [ {| title := title; url := url |} ]
  end.

(** Body of the definition loop: [references.set(id, url)]. *)
Definition defBody (defMatch : rmatch) (references : gmap jsstring jsstring)
    : outcome (gmap jsstring jsstring) :=
  g1 ← required (group 1 defMatch);
  let id := toLowerCase (trim g1) in
  g2 ← required (group 2 defMatch);
  let url := trim g2 in
  Ok (<[ id := url ]> references).

(** The URL of an inline link: what is between the angle brackets, or
    the first white-space-delimited token. *)
Definition inlineUrl (inside : jsstring) : jsstring :=
  if startsWith (ch "<") inside then
    match indexOf (ch ">") inside with
    | Some gt => if 0 <? gt then trim (slice inside 1 gt) else trim (removeAngles inside)
    | None => trim (removeAngles inside)
    end
  else trim (splitWsFirst inside).

(** Body of the inline-link loop. *)
Definition inlineBody (ilMatch : rmatch) (results : list MarkdownLink)
    : outcome (list MarkdownLink) :=
  match group 3 ilMatch with
  | Some _ => Ok results
  | None =>
      let text := trim (default [] (group 1 ilMatch)) in
      let inside := trim (default [] (group 2 ilMatch)) in
      Ok (push text (inlineUrl inside) results)
  end.

(** Body of the autolink loop. *)
Definition autolinkBody (alMatch : rmatch) (results : list MarkdownLink)
    : outcome (list MarkdownLink) :=
  g1 ← required (group 1 alMatch);
  Ok (push [] (trim g1) results).

(** Body of the reference-style loop. *)
Definition refLinkId (rlMatch : rmatch) : jsstring :=
  let text := trim (default [] (group 1 rlMatch)) in
  let rawId := trim (default [] (group 2 rlMatch)) in
  toLowerCase (match rawId with [] => text | _ :: _ => rawId end).

Definition refBody (references : gmap jsstring jsstring)
    (rlMatch : rmatch) (results : list MarkdownLink) : outcome (list MarkdownLink) :=
  match group 3 rlMatch with
  | Some _ => Ok results
  | None =>
      let text := trim (default [] (group 1 rlMatch)) in
      let url := default [] (references !! refLinkId rlMatch) in
      Ok (push text url results)
  end.

Definition extractMarkdownLinks (markdown : jsstring) : outcome (list MarkdownLink) :=
  references ← execLoop refDefRe defBody 0 [] markdown ∅;
  results ← execLoop inlineLinkRe inlineBody 0 [] markdown [];
  results ← execLoop autolinkRe autolinkBody 0 [] markdown results;
  results ← execLoop refLinkRe (refBody references) 0 [] markdown results;
  Ok results.
End Extractor.

(** *** replaceMarkdownLinksWithOrder *)

Record Range := { start : nat; end_ : nat }.
Definition Hit := Range.

Definition intersects (a b : Range) : bool :=
  negb ((end_ a <=? start b) || (end_ b <=? start a)).
Definition isInsideExcluded (s e : nat) (excluded : list Range) : bool :=
  existsb (fun r => intersects {| start := s; end_ := e |} r) excluded.

Definition rangeOf (m : rmatch) : Range :=
  {| start := index m; end_ := index m + length (text m) |}.

Definition pushRange (acc : list Range) (m : rmatch) : list Range := acc ++ [rangeOf m].
Definition pushUnlessExcluded (excluded : list Range) (acc : list Range) (m : rmatch)
    : list Range :=
  if negb (isInsideExcluded (start (rangeOf m)) (end_ (rangeOf m)) excluded)
  then acc ++ [rangeOf m] else acc.

(** The three loops that fill [excluded]. *)
Definition fencedRanges (markdown : jsstring) : list Range :=
  fold_left pushRange (matchAll fencedRE markdown) [].
Definition withInlineCode (markdown : jsstring) (excluded : list Range) : list Range :=
  fold_left (fun ex m => pushUnlessExcluded ex ex m) (matchAll inlineCodeRE markdown) excluded.
Definition withDefLines (markdown : jsstring) (excluded : list Range) : list Range :=
  fold_left pushRange (matchAll defLineRE markdown) excluded.
Definition excludedRanges (markdown : jsstring) : list Range :=
  withDefLines markdown (withInlineCode markdown (fencedRanges markdown)).

(** The three loops that fill [hits]: the step of the inline and
    reference-style loops, then the step of the autolink loop. *)
Definition linkStep (excluded : list Range) (hits : list Hit) (m : rmatch) : list Hit :=
  if startsWith (ch "!") (text m) then hits
  else pushUnlessExcluded excluded hits m.
(** [m[1]] always takes part in a match of the autolink pattern; [test]
    would read a missing group as the text [undefined]. *)
Definition autolinkStep (excluded : list Range) (hits : list Hit) (m : rmatch) : list Hit :=
  let inner := default (str "undefined") (group 1 m) in
  let looksLikeUrl := test looksLikeUrlRE inner in
  let looksLikeEmail := test looksLikeEmailRE inner in
  if (looksLikeUrl || looksLikeEmail)
     && negb (isInsideExcluded (start (rangeOf m)) (end_ (rangeOf m)) excluded)
  then hits ++ [rangeOf m] else hits.

Definition collectHits (markdown : jsstring) (excluded : list Range) : list Hit :=
  let hits := fold_left (linkStep excluded) (matchAll inlineLinkRE markdown) [] in
  let hits := fold_left (linkStep excluded) (matchAll refLinkRE markdown) hits in
  fold_left (autolinkStep excluded) (matchAll autolinkRE markdown) hits.

(** [hits.sort((a, b) => a.start - b.start)]: the sort is stable. *)
Fixpoint insertHit (h : Hit) (l : list Hit) : list Hit :=
  match l with
  | [] => [h]
  | x :: l' => if start h <=? start x then h :: l else x :: insertHit h l'
  end.
Fixpoint sortHits (l : list Hit) : list Hit :=
  match l with
  | [] => []
  | h :: l' => insertHit h (sortHits l')
  end.

(** The marker [`[${i + 1}]`]. *)
Definition marker (i : nat) : jsstring := ch "[" :: numberToString (i + 1) ++ [ch "]"].

(** The [forEach] that builds [result]; the state is [result], [cursor]
    and the index [i] of the callback. *)
Definition buildStep (markdown : jsstring) (acc : jsstring * nat * nat) (hit : Hit)
    : jsstring * nat * nat :=
  let '(result, cursor, i) := acc in
  (result ++ slice markdown cursor (start hit) ++ marker i, end_ hit, S i).

Definition buildReplaced (markdown : jsstring) (hits : list Hit) : jsstring :=
  let '(result, cursor, _) := fold_left (buildStep markdown) hits ([], 0, 0) in
  result ++ sliceFrom markdown cursor.

(** The hits that get a marker, in the order they get it. *)
Definition keptHits (markdown : jsstring) : list Hit :=
  sortHits (collectHits markdown (excludedRanges markdown)).

Definition replaceMarkdownLinksWithOrder (markdown : jsstring) : jsstring :=
  buildReplaced markdown (keptHits markdown).

End Utils.
Import Utils.

(** ** Declarative reading of the patterns *)

(** [advance st w st']: [st'] is [st] moved over the word [w]. *)
Definition advance (st : mstate) (w : jsstring) (st' : mstate) : Prop :=
  rest st = w ++ rest st' /\ seen st' = rev w ++ seen st.

Definition withinMax (hi : option nat) (n : nat) : Prop :=
  match hi with
  | Some h => n <= h
  | None => True
  end.

(** [matches r st w st']: some run of [r] from [st] passes over [w] and ends
    in [st'], whatever its priority among the runs of [r]. *)
Fixpoint matches (r : regex) (st : mstate) (w : jsstring) (st' : mstate) : Prop :=
  advance st w st' /\
  match r with
  | Empty => w = [] /\ caps st' = caps st
  | Char c => w = [c] /\ caps st' = caps st
  | Class p => (exists c, w = [c] /\ p c = true) /\ caps st' = caps st
  | Seq r1 r2 =>
      exists w1 w2 mid, w = w1 ++ w2 /\ matches r1 st w1 mid /\ matches r2 mid w2 st'
  | Alt r1 r2 => matches r1 st w st' \/ matches r2 st w st'
  | Repeat _ lo hi p =>
      Forall (fun c => p c = true) w /\ lo <= length w /\ withinMax hi (length w)
      /\ caps st' = caps st
  | Group n r1 => exists mid, matches r1 st w mid /\ caps st' = (n, w) :: caps mid
  | Backref n =>
      w = default [] (getCapture n (caps st)) /\ caps st' = caps st
  | LineStart => w = [] /\ caps st' = caps st /\ atLineStart st = true
  | LineEnd => w = [] /\ caps st' = caps st /\ atLineEnd st = true
  | InputStart => w = [] /\ caps st' = caps st /\ atInputStart st = true
  | InputEnd => w = [] /\ caps st' = caps st /\ atInputEnd st = true
  | NotPrecededBy c => w = [] /\ caps st' = caps st /\ notPrecededBy c st = true
  end.

(** Least number of code units a match of [r] passes over. *)
Fixpoint minLength (r : regex) : nat :=
  match r with
  | Char _ | Class _ => 1
  | Seq r1 r2 => minLength r1 + minLength r2
  | Alt r1 r2 => Nat.min (minLength r1) (minLength r2)
  | Repeat _ lo _ _ => lo
  | Group _ r1 => minLength r1
  | _ => 0
  end.


(** Least number of literal occurrences of [c] in a match of [r]. *)
Fixpoint minCount (c : char) (r : regex) : nat :=
  match r with
  | Char x => if N.eqb x c then 1 else 0
  | Seq r1 r2 => minCount c r1 + minCount c r2
  | Alt r1 r2 => Nat.min (minCount c r1) (minCount c r2)
  | Group _ r1 => minCount c r1
  | _ => 0
  end.

Definition countChar (c : char) (s : jsstring) : nat :=
  length (List.filter (N.eqb c) s).

(** Does every match of [r] set the group [n]. *)
Fixpoint defines (n : nat) (r : regex) : bool :=
  match r with
  | Seq r1 r2 => defines n r1 || defines n r2
  | Alt r1 r2 => defines n r1 && defines n r2
  | Group i r1 => Nat.eqb i n || defines n r1
  | _ => false
  end.

(** Successive matches of one scan: each starts at or after [from], and the
    following ones at or after its end and after its start. *)
Fixpoint chained (from : nat) (ms : list rmatch) : Prop :=
  match ms with
  | [] => True
  | m :: ms' => from <= index m /\ chained (Nat.max (matchEnd m) (S (index m))) ms'
  end.

(** Running a loop body over a list of matches, first to last. *)
Fixpoint foldBodies {S : Type} (body : rmatch -> S -> outcome S) (ms : list rmatch) (s : S)
    : outcome S :=
  match ms with
  | [] => Ok s
  | m :: ms' => s' ← body m s; foldBodies body ms' s'
  end.

(** *** The extractor, pass by pass *)

Section ExtractorReading.
Variable toLowerCase : jsstring -> jsstring.

(** The lookup after one more definition line. *)
Definition harvestStep (references : gmap jsstring jsstring) (m : rmatch)
    : gmap jsstring jsstring :=
  <[ toLowerCase (trim (default [] (group 1 m))) := trim (default [] (group 2 m)) ]>
    references.
Definition harvested (markdown : jsstring) : gmap jsstring jsstring :=
  fold_left harvestStep (matchAll refDefRe markdown) ∅.

(** What one match of each pass adds to [results]. *)
Definition inlineOccurrence (m : rmatch) : list MarkdownLink :=
  match group 3 m with
  | Some _ => []
  | None => push (trim (default [] (group 1 m))) (inlineUrl (trim (default [] (group 2 m)))) []
  end.
Definition autolinkOccurrence (m : rmatch) : list MarkdownLink :=
  push [] (trim (default [] (group 1 m))) [].
Definition refOccurrence (references : gmap jsstring jsstring) (m : rmatch)
    : list MarkdownLink :=
  match group 3 m with
  | Some _ => []
  | None =>
      push (trim (default [] (group 1 m)))
           (default [] (references !! refLinkId toLowerCase m)) []
  end.

(** The occurrences of a pass, each with the offset of its match. *)
Definition located (f : rmatch -> list MarkdownLink) (ms : list rmatch)
    : list (nat * MarkdownLink) :=
  flat_map (fun m => map (pair (index m)) (f m)) ms.

Definition inlineOccurrences (markdown : jsstring) : list (nat * MarkdownLink) :=
  located inlineOccurrence (matchAll inlineLinkRe markdown).
Definition autolinkOccurrences (markdown : jsstring) : list (nat * MarkdownLink) :=
  located autolinkOccurrence (matchAll autolinkRe markdown).
Definition refOccurrences (markdown : jsstring) : list (nat * MarkdownLink) :=
  located (refOccurrence (harvested markdown)) (matchAll refLinkRe markdown).
End ExtractorReading.

(** Offsets in strictly increasing order. *)
Fixpoint increasingFrom (from : nat) (offsets : list nat) : Prop :=
  match offsets with
  | [] => True
  | o :: os => from <= o /\ increasingFrom (S o) os
  end.

(** *** The rewriter's spans *)

(** Each hit starts at or after the end of the one before it. *)
Fixpoint noOverlapFrom (cursor : nat) (hits : list Hit) : Prop :=
  match hits with
  | [] => True
  | h :: hs => cursor <= start h /\ noOverlapFrom (end_ h) hs
  end.
Definition NoOverlap (hits : list Hit) : Prop := noOverlapFrom 0 hits.

(** No two hits intersect, by the overlap test of the source. *)
Definition PairwiseDisjoint (hits : list Hit) : Prop :=
  ForallOrdPairs (fun a b => intersects a b = false) hits.

(** Hits in the order of their starts, none before [lo]. *)
Fixpoint sortedFrom (lo : nat) (hits : list Hit) : Prop :=
  match hits with
  | [] => True
  | h :: hs => lo <= start h /\ sortedFrom (start h) hs
  end.

Definition spanLength (h : Hit) : nat := end_ h - start h.
Fixpoint totalSpans (hits : list Hit) : nat :=
  match hits with
  | [] => 0
  | h :: hs => spanLength h + totalSpans hs
  end.

(** Total length of the markers of [hits], the first of which has index [i]. *)
Fixpoint markersFrom (i : nat) (hits : list Hit) : nat :=
  match hits with
  | [] => 0
  | _ :: hs => length (marker i) + markersFrom (S i) hs
  end.
Definition totalMarkers (hits : list Hit) : nat := markersFrom 0 hits.

(** *** Documents used as examples *)

(** [toLowerCase] on ASCII documents: the letters A to Z move to a to z. *)
Definition asciiLower (s : jsstring) : jsstring :=
  map (fun c => if inRange (ch "A") (ch "Z") c then (c + 32)%N else c) s.


(** A closed fence around one link, then another link. *)
Definition closedFenceDoc : jsstring :=
  str "```" ++ [10%N] ++ str "[a](b)" ++ [10%N] ++ str "```" ++ [10%N] ++ str "[c](d)".

(** The image [![alt](url)]. *)
Definition imageSyntax (alt url : jsstring) : jsstring :=
  ch "!" :: ch "[" :: alt ++ ch "]" :: ch "(" :: url ++ [ch ")"].

(** *** Further readings used below *)

(** The offsets a range covers. *)
Definition covers (r : Range) (p : nat) : Prop := start r <= p < end_ r.

(** Gaps and fills in turn: [g0 ++ f0 ++ g1 ++ f1 ++ ... ++ gn]. *)
Fixpoint interleave (gaps fills : list jsstring) : jsstring :=
  match gaps with
  | [] => []
  | g :: gs =>
      match fills with
      | [] => g
      | f :: fs => g ++ f ++ interleave gs fs
      end
  end.

(** The text of a span of the document. *)
Definition spanText (markdown : jsstring) (h : Range) : jsstring :=
  slice markdown (start h) (end_ h).

(** The markers [[i+1]], ..., [[i+n]]. *)
Definition markersOf (i n : nat) : list jsstring := map marker (seq i n).

(** The text built by the [forEach] and the final [slice], as a recursion on
    the hits. *)
Fixpoint weave (markdown : jsstring) (cursor i : nat) (hits : list Hit) : jsstring :=
  match hits with
  | [] => sliceFrom markdown cursor
  | h :: hs => slice markdown cursor (start h) ++ marker i ++ weave markdown (end_ h) (S i) hs
  end.

(** The key and the value a definition line registers. *)
Definition defKey (toLowerCase : jsstring -> jsstring) (m : rmatch) : jsstring :=
  toLowerCase (trim (default [] (group 1 m))).
Definition defUrl (m : rmatch) : jsstring := trim (default [] (group 2 m)).

Definition noWhiteSpace (s : jsstring) : Prop := Forall (fun c => isWhiteSpace c = false) s.


(** *** Comparing the patterns of the two functions *)

(** The offset and the text of a match, without its groups. *)
Definition span (m : rmatch) : nat * jsstring := (index m, text m).

(** A pattern with its capture groups opened up. *)
Fixpoint eraseGroups (r : regex) : regex :=
  match r with
  | Seq r1 r2 => Seq (eraseGroups r1) (eraseGroups r2)
  | Alt r1 r2 => Alt (eraseGroups r1) (eraseGroups r2)
  | Group _ r1 => eraseGroups r1
  | _ => r
  end.

Fixpoint backrefFree (r : regex) : bool :=
  match r with
  | Seq r1 r2 | Alt r1 r2 => backrefFree r1 && backrefFree r2
  | Group _ r1 => backrefFree r1
  | Backref _ => false
  | _ => true
  end.

(** Two states at the same place of the same input. *)
Definition sameCursor (st1 st2 : mstate) : Prop :=
  seen st1 = seen st2 /\ rest st1 = rest st2.

(** Both attempts fail, or both succeed with related results. *)
Definition optRel {A B : Type} (R : A -> B -> Prop) (a : option A) (b : option B) : Prop :=
  match a, b with
  | Some x, Some y => R x y
  | None, None => True
  | _, _ => False
  end.

(** [(?<!c) body] or else [c body], and [c? body]. *)
Definition guarded (c : char) (body : regex) : regex :=
  Alt (Seq (NotPrecededBy c) body) (Seq (Char c) body).
Definition prefixed (c : char) (body : regex) : regex := Seq (optChar c) body.

(** What a scan for [guarded c body] has established when it stands at
    [(sn, rs)] with [skip] code units to pass: an attempt made right after
    a [c] finds no [body]. *)
Definition scanReady (c : char) (body : regex) (skip : nat) (sn rs : jsstring) : Prop :=
  match skip with
  | 0 => startsWith c sn = true -> run body (MState sn rs []) Some = None
  | S n => nth_error rs n <> Some c
  end.

(** The bracket parts the extractor and the rewriter share. *)
Definition inlineLinkBody : regex :=
  seqs [ Char (ch "["); star (noneOf [ch "]"]); Char (ch "]");
         Char (ch "("); plus (noneOf [ch ")"]); Char (ch ")") ].
Definition refLinkBody : regex :=
  seqs [ Char (ch "["); plus (noneOf [ch "]"]); Char (ch "]");
         Char (ch "["); star (noneOf [ch "]"; 13; 10]%N); Char (ch "]") ].
(** ** Facts about the matcher *)

Section MatcherFacts.

Lemma advance_trans st1 w1 st2 w2 st3 :
  advance st1 w1 st2 -> advance st2 w2 st3 -> advance st1 (w1 ++ w2) st3.
Proof.
  intros [H1 H2] [H3 H4]. split.
  - rewrite H1, H3. now rewrite <- app_assoc.
  - rewrite H4, H2, rev_app_distr. now rewrite <- app_assoc.
Qed.

Lemma advance_position st w st' :
  advance st w st' -> position st' = length w + position st.
Proof.
  intros [_ H]. unfold position. rewrite H, length_app, length_rev. reflexivity.
Qed.

Lemma advance_text st w st' :
  advance st w st' -> firstn (position st' - position st) (rest st) = w.
Proof.
  intros H. rewrite (advance_position _ _ _ H).
  destruct H as [H _]. rewrite H.
  replace (length w + position st - position st) with (length w) by lia.
  apply take_app_length.
Qed.

Lemma matches_advance r st w st' : matches r st w st' -> advance st w st'.
Proof. destruct r; simpl; tauto. Qed.

Lemma isPrefix_spec s t : isPrefix s t = true -> t = s ++ skipn (length s) t.
Proof.
  revert t. induction s as [|x s IH]; intros [|y t]; simpl; try congruence.
  intros H. apply andb_true_iff in H as [H1 H2].
  apply N.eqb_eq in H1. subst y. f_equal. now apply IH.
Qed.

Lemma repeatClass_sound {A} g p rs :
  forall lo hi sn (k : jsstring -> jsstring -> option A) res,
    repeatClass g p lo hi sn rs k = Some res ->
    exists w rs', rs = w ++ rs' /\ Forall (fun c => p c = true) w
                  /\ lo <= length w /\ withinMax hi (length w)
                  /\ k (rev w ++ sn) rs' = Some res.
Proof.
  assert (Hstop : forall lo hi sn rs0 (k : jsstring -> jsstring -> option A) res,
             match lo with 0 => k sn rs0 | S _ => None end = Some res ->
             exists w rs', rs0 = w ++ rs' /\ Forall (fun c => p c = true) w
                  /\ lo <= length w /\ withinMax hi (length w)
                  /\ k (rev w ++ sn) rs' = Some res).
  { intros lo hi sn rs0 k res H. destruct lo; [|discriminate].
    exists [], rs0. repeat split; auto.
    destruct hi; simpl; lia. }
  assert (Hmore : forall c rs0 lo hi sn (k : jsstring -> jsstring -> option A) res,
             p c = true -> canTake hi = true ->
             (exists w rs', rs0 = w ++ rs' /\ Forall (fun c => p c = true) w
                  /\ pred lo <= length w /\ withinMax (option_map pred hi) (length w)
                  /\ k (rev w ++ c :: sn) rs' = Some res) ->
             exists w rs', c :: rs0 = w ++ rs' /\ Forall (fun c => p c = true) w
                  /\ lo <= length w /\ withinMax hi (length w)
                  /\ k (rev w ++ sn) rs' = Some res).
  { intros c rs0 lo hi sn k res Hp Hc (w & rs' & -> & Hw & Hlo & Hhi & Hk).
    exists (c :: w), rs'. repeat split.
    - now constructor.
    - simpl. lia.
    - destruct hi as [[|h]|]; simpl in *; try discriminate; lia.
    - simpl. now rewrite <- app_assoc. }
  induction rs as [|c rs IH]; intros lo hi sn k res H; simpl in H.
  - now apply Hstop.
  - destruct (p c && canTake hi) eqn:E; [|now apply Hstop].
    apply andb_true_iff in E as [Hp Hc].
    destruct g; unfold orElse in H.
    + destruct (repeatClass true p (pred lo) (option_map pred hi) (c :: sn) rs k) eqn:E.
      * injection H as ->. apply Hmore; auto.
      * now apply Hstop.
    + destruct (match lo with 0 => k sn (c :: rs) | S _ => None end) eqn:E.
      * injection H as ->. now apply Hstop.
      * apply Hmore; auto.
Qed.

(** Soundness of the matcher: a successful run is a match in the
    declarative reading, and the continuation succeeded after it. *)
Lemma run_sound {A} r :
  forall st (k : mstate -> option A) res,
    run r st k = Some res ->
    exists w st', matches r st w st' /\ k st' = Some res.
Proof.
  induction r; intros st k res H; simpl in H.
  - exists [], st. repeat split; auto.
  - destruct (rest st) as [|x rs] eqn:E; [discriminate|].
    destruct (N.eqb x c) eqn:Ex; [|discriminate]. apply N.eqb_eq in Ex. subst x.
    exists [c], (step st c rs). repeat split; auto.
  - destruct (rest st) as [|x rs] eqn:E; [discriminate|].
    destruct (p x) eqn:Ex; [|discriminate].
    exists [x], (step st x rs). repeat split; eauto.
  - apply IHr1 in H as (w1 & mid & H1 & H).
    apply IHr2 in H as (w2 & st' & H2 & H).
    exists (w1 ++ w2), st'. split; [|assumption]. split.
    + eapply advance_trans; eauto using matches_advance.
    + eauto 10.
  - unfold orElse in H. destruct (run r1 st k) eqn:E.
    + injection H as ->. apply IHr1 in E as (w & st' & H1 & H).
      exists w, st'. split; [|assumption]. split; [eauto using matches_advance|auto].
    + apply IHr2 in H as (w & st' & H1 & H).
      exists w, st'. split; [|assumption]. split; [eauto using matches_advance|auto].
  - apply repeatClass_sound in H as (w & rs' & E & Hw & Hlo & Hhi & H).
    exists w, (MState (rev w ++ seen st) rs' (caps st)). repeat split; auto.
  - apply IHr in H as (w & mid & H1 & H).
    pose proof (matches_advance _ _ _ _ H1) as Ha.
    rewrite (advance_text _ _ _ Ha) in H.
    eexists w, _. split; [|exact H]. split.
    + destruct Ha. split; assumption.
    + exists mid. split; auto.
  - destruct (getCapture n (caps st)) as [s|] eqn:E.
    + destruct (isPrefix s (rest st)) eqn:Ep; [|discriminate].
      eexists s, _. split; [|exact H]. simpl. rewrite E. repeat split; auto.
      simpl. now apply isPrefix_spec.
    + exists [], st. simpl. rewrite E. repeat split; auto.
  - destruct (atLineStart st) eqn:E; [|discriminate]. exists [], st. repeat split; auto.
  - destruct (atLineEnd st) eqn:E; [|discriminate]. exists [], st. repeat split; auto.
  - destruct (atInputStart st) eqn:E; [|discriminate]. exists [], st. repeat split; auto.
  - destruct (atInputEnd st) eqn:E; [|discriminate]. exists [], st. repeat split; auto.
  - destruct (notPrecededBy c st) eqn:E; [|discriminate]. exists [], st. repeat split; auto.
Qed.

Lemma matchAt_sound re sn rs m :
  matchAt re sn rs = Some m ->
  exists st', matches re (MState sn rs []) (text m) st'
              /\ index m = length sn /\ groups m = caps st'.
Proof.
  unfold matchAt. intros H.
  destruct (run re (MState sn rs []) Some) as [st'|] eqn:E; [|discriminate].
  injection H as <-. apply run_sound in E as (w & st0 & Hm & E). injection E as ->.
  exists st'. simpl. split; [|auto].
  pose proof (advance_text _ _ _ (matches_advance _ _ _ _ Hm)) as Ht.
  simpl in Ht. unfold position at 2 in Ht. simpl in Ht. now rewrite Ht.
Qed.

End MatcherFacts.

(** ** Facts about the scans *)

Section ScanFacts.

Lemma matches_minLength r :
  forall st w st', matches r st w st' -> minLength r <= length w.
Proof.
  induction r; intros st w st' [_ H]; simpl in *; try lia.
  - destruct H as [-> _]. simpl. lia.
  - destruct H as [(c & -> & _) _]. simpl. lia.
  - destruct H as (w1 & w2 & mid & -> & H1 & H2).
    apply IHr1 in H1. apply IHr2 in H2. rewrite length_app. lia.
  - destruct H as [H|H]; [apply IHr1 in H|apply IHr2 in H]; lia.
  - destruct H as (mid & H & _). eauto.
Qed.

Lemma countChar_app c s t : countChar c (s ++ t) = countChar c s + countChar c t.
Proof. unfold countChar. now rewrite List.filter_app, length_app. Qed.

Lemma matches_minCount c r :
  forall st w st', matches r st w st' -> minCount c r <= countChar c w.
Proof.
  induction r; intros st w st' [_ H]; simpl in *; try lia.
  - destruct H as [-> _]. unfold countChar. simpl. rewrite (N.eqb_sym c c0).
    destruct (N.eqb c0 c); simpl; lia.
  - destruct H as (w1 & w2 & mid & -> & H1 & H2).
    apply IHr1 in H1. apply IHr2 in H2. rewrite countChar_app. lia.
  - destruct H as [H|H]; [apply IHr1 in H|apply IHr2 in H]; lia.
  - destruct H as (mid & H & _). eauto.
Qed.

Lemma matches_keeps_captures n r :
  forall st w st', matches r st w st' ->
    is_Some (getCapture n (caps st)) -> is_Some (getCapture n (caps st')).
Proof.
  induction r; intros st w st' [_ H] Hn; simpl in *;
    try (destruct H as (_ & -> & _); assumption);
    try (destruct H as (_ & ->); assumption).
  - destruct H as (w1 & w2 & mid & _ & H1 & H2). eauto.
  - destruct H as [H|H]; eauto.
  - destruct H as (_ & _ & _ & ->). assumption.
  - destruct H as (mid & H & ->). simpl.
    destruct (Nat.eqb n0 n); eauto.
Qed.

Lemma matches_defines n r :
  forall st w st', defines n r = true -> matches r st w st' ->
    is_Some (getCapture n (caps st')).
Proof.
  induction r; intros st w st' Hd [_ H]; simpl in *; try discriminate.
  - destruct H as (w1 & w2 & mid & _ & H1 & H2).
    apply orb_true_iff in Hd as [Hd|Hd].
    + eapply matches_keeps_captures; eauto.
    + eauto.
  - apply andb_true_iff in Hd as [Hd1 Hd2]. destruct H as [H|H]; eauto.
  - destruct H as (mid & H & ->). simpl.
    destruct (Nat.eqb n0 n) eqn:E; simpl in *; eauto.
Qed.

Lemma matchAt_index re sn rs m : matchAt re sn rs = Some m -> index m = length sn.
Proof. intros H. apply matchAt_sound in H as (? & _ & ? & _). assumption. Qed.

Lemma matchAt_prefix re sn rs m :
  matchAt re sn rs = Some m -> exists post, rs = text m ++ post.
Proof.
  intros H. apply matchAt_sound in H as (st' & H & _).
  apply matches_advance in H as [H _]. simpl in H. eauto.
Qed.

Lemma matchAt_minLength re sn rs m :
  matchAt re sn rs = Some m -> minLength re <= length (text m).
Proof.
  intros H. apply matchAt_sound in H as (st' & H & _).
  eauto using matches_minLength.
Qed.

Lemma matchAt_minCount c re sn rs m :
  matchAt re sn rs = Some m -> minCount c re <= countChar c (text m).
Proof.
  intros H. apply matchAt_sound in H as (st' & H & _).
  eauto using matches_minCount.
Qed.

Lemma matchAt_defines n re sn rs m :
  defines n re = true -> matchAt re sn rs = Some m -> is_Some (group n m).
Proof.
  intros Hd H. apply matchAt_sound in H as (st' & H & _ & Hg).
  unfold group. rewrite Hg. eauto using matches_defines.
Qed.

(** Every match a scan reports was found by an attempt at some position
    of the scanned text, at or after [lastIndex]. *)
Lemma scanAll_In re rs :
  forall skip sn m, In m (scanAll re skip sn rs) ->
    exists sn' rs', matchAt re sn' rs' = Some m
                    /\ rev sn' ++ rs' = rev sn ++ rs
                    /\ length sn + skip <= length sn'.
Proof.
  induction rs as [|c rs IH]; intros skip sn m H; simpl in H.
  - destruct skip; [|contradiction].
    destruct (matchAt re sn []) eqn:E; [|contradiction].
    destruct H as [<-|[]]. exists sn, []. split; [assumption|split; [reflexivity|lia]].
  - assert (Hnext : forall n, In m (scanAll re n (c :: sn) rs) ->
                      exists sn' rs', matchAt re sn' rs' = Some m
                        /\ rev sn' ++ rs' = rev sn ++ c :: rs
                        /\ length sn + S n <= length sn').
    { intros n Hn. apply IH in Hn as (sn' & rs' & H1 & H2 & H3).
      exists sn', rs'. split; [assumption|]. split.
      - rewrite H2. simpl. now rewrite <- app_assoc.
      - simpl in H3. lia. }
    destruct skip as [|n].
    + destruct (matchAt re sn (c :: rs)) eqn:E.
      * destruct H as [<-|H].
        -- exists sn, (c :: rs). split; [assumption|split; [reflexivity|lia]].
        -- apply Hnext in H as (sn' & rs' & H1 & H2 & H3).
           exists sn', rs'. split; [assumption|split; [assumption|lia]].
      * apply Hnext in H as (sn' & rs' & H1 & H2 & H3).
        exists sn', rs'. split; [assumption|split; [assumption|lia]].
    + apply Hnext in H. assumption.
Qed.

(** Where a match of [matchAll] lies in the text. *)
Lemma matchAll_In re s m :
  In m (matchAll re s) ->
  exists pre post, s = pre ++ text m ++ post /\ index m = length pre
                   /\ matchAt re (rev pre) (text m ++ post) = Some m.
Proof.
  intros H. apply scanAll_In in H as (sn' & rs' & H1 & H2 & _). simpl in H2.
  destruct (matchAt_prefix _ _ _ _ H1) as [post Hp].
  exists (rev sn'), post. rewrite rev_involutive. split; [|split].
  - rewrite <- H2. now rewrite <- Hp.
  - rewrite (matchAt_index _ _ _ _ H1). now rewrite length_rev.
  - now rewrite <- Hp.
Qed.

Lemma matchAll_bounds re s m :
  In m (matchAll re s) -> matchEnd m <= length s.
Proof.
  intros H. apply matchAll_In in H as (pre & post & -> & Hi & _).
  unfold matchEnd. rewrite Hi, !length_app. lia.
Qed.

Lemma matchAll_text re s m :
  In m (matchAll re s) -> slice s (index m) (matchEnd m) = text m.
Proof.
  intros H. apply matchAll_In in H as (pre & post & -> & Hi & _).
  unfold slice, matchEnd. rewrite Hi.
  rewrite drop_app_length.
  replace (length pre + length (text m) - length pre) with (length (text m)) by lia.
  apply take_app_length.
Qed.

Lemma scanAll_chained re rs :
  forall skip sn, chained (length sn + skip) (scanAll re skip sn rs).
Proof.
  induction rs as [|c rs IH]; intros skip sn; simpl.
  - destruct skip; simpl; [|exact I].
    destruct (matchAt re sn []) eqn:E; simpl; [|exact I].
    rewrite (matchAt_index _ _ _ _ E). split; [lia|exact I].
  - destruct skip as [|n].
    + destruct (matchAt re sn (c :: rs)) eqn:E; simpl.
      * pose proof (matchAt_index _ _ _ _ E) as Hi. split; [lia|].
        specialize (IH (pred (length (text r))) (c :: sn)). simpl in IH.
        unfold matchEnd. rewrite Hi.
        replace (Nat.max (length sn + length (text r)) (S (length sn)))
          with (S (length sn + pred (length (text r)))) by lia.
        exact IH.
      * specialize (IH 0 (c :: sn)). simpl in IH.
        replace (length sn + 0) with (length sn) by lia.
        revert IH. generalize (scanAll re 0 (c :: sn) rs).
        intros [|m ms]; simpl; [auto|]. intros [H1 H2]. split; [lia|assumption].
    + specialize (IH n (c :: sn)). simpl in IH.
      replace (length sn + S n) with (S (length sn + n)) by lia. exact IH.
Qed.

(** In one scan a later match starts at or after the end of an earlier one. *)
Lemma chained_later from ms m :
  chained from ms -> In m ms -> from <= index m.
Proof.
  revert from. induction ms as [|x ms IH]; intros from H Hin; [contradiction|].
  destruct H as [H1 H2]. destruct Hin as [->|Hin]; [assumption|].
  apply IH in H2; [|assumption]. lia.
Qed.

(** An [exec] loop over a pattern that cannot match the empty string runs
    its body on the matches of the scan, in order. *)
Lemma execLoop_scanAll {S} re (body : rmatch -> S -> outcome S) rs :
  1 <= minLength re ->
  forall skip sn s,
    execLoop re body skip sn rs s = foldBodies body (scanAll re skip sn rs) s.
Proof.
  intros Hmin. induction rs as [|c rs IH]; intros skip sn s; simpl.
  - destruct skip; [|reflexivity].
    destruct (matchAt re sn []) as [m|] eqn:E; [|reflexivity]. simpl.
    pose proof (matchAt_minLength _ _ _ _ E) as Hl.
    destruct (body m s); simpl; try reflexivity.
    destruct (length (text m)); [lia|reflexivity].
  - destruct skip as [|n]; [|apply IH].
    destruct (matchAt re sn (c :: rs)) as [m|] eqn:E; [|apply IH]. simpl.
    pose proof (matchAt_minLength _ _ _ _ E) as Hl.
    destruct (body m s); simpl; try reflexivity.
    destruct (length (text m)) eqn:El; [lia|]. simpl. apply IH.
Qed.

End ScanFacts.

Section CountFacts.

(** A pattern that needs more literal [c]s than the text has finds nothing
    in it. *)
Lemma matchAll_needs_char c re s :
  countChar c s < minCount c re -> matchAll re s = [].
Proof.
  intros Hc. destruct (matchAll re s) as [|m ms] eqn:E; [reflexivity|].
  assert (Hm : In m (matchAll re s)) by (rewrite E; now left).
  apply matchAll_In in Hm as (pre & post & -> & _ & Hm).
  apply (matchAt_minCount c) in Hm.
  rewrite !countChar_app in Hc. lia.
Qed.


End CountFacts.

(** ** Facts about the patterns of the source *)

(** Taking apart a declarative match of a concrete pattern. *)
Ltac break_matches :=
  repeat match goal with
  | H : _ /\ _ |- _ => destruct H
  | H : exists _, _ |- _ => destruct H
  | H : _ \/ _ |- _ => destruct H
  | H : True |- _ => clear H
  end.
Ltac unfold_matches H :=
  cbn [matches seqs map lit str list_ascii_of_string star plus lazyStar optChar optional] in H.
Ltac chase_captures :=
  repeat match goal with H : caps _ = _ |- _ => rewrite H in *; clear H end.

Section PatternFacts.


Lemma pushRange_In ms :
  forall acc r, In r (fold_left pushRange ms acc) <->
                In r acc \/ exists m, In m ms /\ r = rangeOf m.
Proof.
  induction ms as [|m ms IH]; intros acc r; simpl.
  - split; [auto|]. intros [H|(m & [] & _)]. assumption.
  - rewrite IH. unfold pushRange at 1. rewrite in_app_iff. simpl. split.
    + intros [[H|[<-|[]]]|(m' & H1 & H2)]; eauto.
    + intros [H|(m' & [<-|H1] & H2)]; eauto.
Qed.

Lemma rangeOf_slice re s m :
  In m (matchAll re s) -> slice s (start (rangeOf m)) (end_ (rangeOf m)) = text m.
Proof. intros H. apply (matchAll_text re). assumption. Qed.








End PatternFacts.

(** ** Facts about the extractor *)

Section ExtractorFacts.

Lemma foldBodies_pure {S} (body : rmatch -> S -> outcome S) (g : S -> rmatch -> S) ms :
  (forall m, In m ms -> forall s, body m s = Ok (g s m)) ->
  forall s, foldBodies body ms s = Ok (fold_left g ms s).
Proof.
  induction ms as [|m ms IH]; intros H s; simpl; [reflexivity|].
  rewrite (H m (or_introl eq_refl)). simpl. apply IH.
  intros m' Hm'. apply H. now right.
Qed.

Lemma fold_left_append {T} (f : rmatch -> list T) ms :
  forall acc, fold_left (fun res m => res ++ f m) ms acc = acc ++ flat_map f ms.
Proof.
  induction ms as [|m ms IH]; intros acc; simpl.
  - now rewrite app_nil_r.
  - rewrite IH. now rewrite <- app_assoc.
Qed.

Lemma push_append t u results : push t u results = results ++ push t u [].
Proof. destruct u; simpl; [now rewrite app_nil_r|reflexivity]. Qed.

Lemma push_url t u x : In x (push t u []) -> url x <> [].
Proof. destruct u; simpl; [tauto|]. intros [<-|[]]. discriminate. Qed.

Lemma minLength_refDefRe : 1 <= minLength refDefRe.
Proof. vm_compute. lia. Qed.
Lemma minLength_inlineLinkRe : 1 <= minLength inlineLinkRe.
Proof. vm_compute. lia. Qed.
Lemma minLength_autolinkRe : 1 <= minLength autolinkRe.
Proof. vm_compute. lia. Qed.
Lemma minLength_refLinkRe : 1 <= minLength refLinkRe.
Proof. vm_compute. lia. Qed.

Lemma matchAll_group n re s m :
  defines n re = true -> In m (matchAll re s) -> is_Some (group n m).
Proof.
  intros Hd H. apply matchAll_In in H as (pre & post & _ & _ & H).
  eauto using matchAt_defines.
Qed.

Variable toLowerCase : jsstring -> jsstring.

Lemma defBody_ok markdown m references :
  In m (matchAll refDefRe markdown) ->
  defBody toLowerCase m references = Ok (harvestStep toLowerCase references m).
Proof.
  intros H. unfold defBody, harvestStep.
  destruct (matchAll_group 1 refDefRe _ _ eq_refl H) as [g1 ->].
  destruct (matchAll_group 2 refDefRe _ _ eq_refl H) as [g2 ->].
  reflexivity.
Qed.

Lemma inlineBody_ok m results :
  inlineBody m results = Ok (results ++ inlineOccurrence m).
Proof.
  unfold inlineBody, inlineOccurrence. destruct (group 3 m).
  - now rewrite app_nil_r.
  - now rewrite push_append.
Qed.

Lemma autolinkBody_ok markdown m results :
  In m (matchAll autolinkRe markdown) ->
  autolinkBody m results = Ok (results ++ autolinkOccurrence m).
Proof.
  intros H. unfold autolinkBody, autolinkOccurrence.
  destruct (matchAll_group 1 autolinkRe _ _ eq_refl H) as [g1 ->]. simpl.
  now rewrite push_append.
Qed.

Lemma refBody_ok references m results :
  refBody toLowerCase references m results
  = Ok (results ++ refOccurrence toLowerCase references m).
Proof.
  unfold refBody, refOccurrence. destruct (group 3 m).
  - now rewrite app_nil_r.
  - now rewrite push_append.
Qed.

Lemma located_links f ms : map snd (located f ms) = flat_map f ms.
Proof.
  unfold located. induction ms as [|m ms IH]; simpl; [reflexivity|].
  rewrite map_app, IH. f_equal.
  rewrite map_map. simpl. apply map_id.
Qed.

(** The extractor returns, and what it returns is the inline occurrences,
    then the autolink ones, then the reference-style ones. *)
Lemma extract_reading markdown :
  extractMarkdownLinks toLowerCase markdown
  = Ok (map snd (inlineOccurrences markdown ++ autolinkOccurrences markdown
                 ++ refOccurrences toLowerCase markdown)).
Proof.
  unfold extractMarkdownLinks.
  rewrite (execLoop_scanAll _ _ _ minLength_refDefRe).
  rewrite (foldBodies_pure _ (harvestStep toLowerCase))
    by (intros m Hm s; now apply (defBody_ok markdown)).
  simpl.
  rewrite (execLoop_scanAll _ _ _ minLength_inlineLinkRe).
  rewrite (foldBodies_pure _ (fun res m => res ++ inlineOccurrence m))
    by (intros m Hm s; apply inlineBody_ok).
  simpl.
  rewrite (execLoop_scanAll _ _ _ minLength_autolinkRe).
  rewrite (foldBodies_pure _ (fun res m => res ++ autolinkOccurrence m))
    by (intros m Hm s; now apply (autolinkBody_ok markdown)).
  simpl.
  rewrite (execLoop_scanAll _ _ _ minLength_refLinkRe).
  rewrite (foldBodies_pure _ (fun res m => res ++ refOccurrence toLowerCase
                                 (fold_left (harvestStep toLowerCase)
                                    (scanAll refDefRe 0 [] markdown) ∅) m))
    by (intros m Hm s; apply refBody_ok).
  simpl. rewrite !fold_left_append. simpl.
  rewrite !map_app.
  unfold inlineOccurrences, autolinkOccurrences, refOccurrences.
  rewrite !located_links. unfold harvested, matchAll.
  now rewrite <- app_assoc.
Qed.

Lemma located_nil f ms : (forall m, In m ms -> f m = []) -> located f ms = [].
Proof.
  unfold located. induction ms as [|m ms IH]; intros H; [reflexivity|]. cbn [flat_map].
  rewrite (H m (or_introl eq_refl)), IH; [reflexivity|].
  intros m' Hm'. apply H. now right.
Qed.

Lemma push_at_most_one t u : length (push t u []) <= 1.
Proof. destruct u; simpl; lia. Qed.

Lemma increasingFrom_weaken os : forall a b, a <= b -> increasingFrom b os -> increasingFrom a os.
Proof. destruct os; simpl; intros a b Hab; [auto|]. intros [H1 H2]. split; [lia|assumption]. Qed.

(** The occurrences of one pass come in the order of their offsets. *)
Lemma located_increasing f ms :
  (forall m, length (f m) <= 1) ->
  forall from, chained from ms -> increasingFrom from (map fst (located f ms)).
Proof.
  intros Hf. unfold located. induction ms as [|m ms IH]; intros from H; simpl; [exact I|].
  destruct H as [H1 H2]. rewrite map_app, map_map. simpl.
  apply IH in H2. specialize (Hf m).
  destruct (f m) as [|x [|y l]]; simpl in *; try lia.
  - eapply increasingFrom_weaken; [|exact H2]. lia.
  - split; [assumption|]. eapply increasingFrom_weaken; [|exact H2]. lia.
Qed.

End ExtractorFacts.

Section ExtractorCorollaries.

(** Without a match of any of the three link patterns nothing is returned. *)
Lemma extract_no_matches toLowerCase markdown :
  matchAll inlineLinkRe markdown = [] ->
  matchAll autolinkRe markdown = [] ->
  matchAll refLinkRe markdown = [] ->
  extractMarkdownLinks toLowerCase markdown = Ok [].
Proof.
  intros H1 H2 H3. rewrite extract_reading.
  unfold inlineOccurrences, autolinkOccurrences, refOccurrences.
  now rewrite H1, H2, H3.
Qed.

End ExtractorCorollaries.

(** ** Facts about the rewriter *)

Section RewriterFacts.

Local Arguments marker : simpl never.

Lemma insertHit_In h x l : In h (insertHit x l) <-> h = x \/ In h l.
Proof.
  induction l as [|y l IH]; simpl.
  - intuition.
  - destruct (start x <=? start y); simpl; rewrite ?IH; intuition.
Qed.

Lemma sortHits_In h l : In h (sortHits l) <-> In h l.
Proof.
  induction l as [|x l IH]; simpl; [tauto|].
  rewrite insertHit_In, IH. intuition.
Qed.

(** Where the hits of the link loops come from. *)
Lemma linkStep_In excluded ms :
  forall acc h, In h (fold_left (linkStep excluded) ms acc) ->
    In h acc \/
    exists m, In m ms /\ h = rangeOf m /\ startsWith (ch "!") (text m) = false
              /\ isInsideExcluded (start h) (end_ h) excluded = false.
Proof.
  induction ms as [|m ms IH]; intros acc h H; simpl in H; [now left|].
  apply IH in H as [H|(m' & H1 & H2)].
  - unfold linkStep, pushUnlessExcluded in H.
    destruct (startsWith (ch "!") (text m)) eqn:E1; [now left|].
    destruct (isInsideExcluded (start (rangeOf m)) (end_ (rangeOf m)) excluded) eqn:E2;
      simpl in H; [now left|].
    apply in_app_or in H as [H|[<-|[]]]; [now left|].
    right. exists m. simpl. auto.
  - right. exists m'. simpl. auto.
Qed.

Lemma autolinkStep_In excluded ms :
  forall acc h, In h (fold_left (autolinkStep excluded) ms acc) ->
    In h acc \/
    exists m, In m ms /\ h = rangeOf m
              /\ isInsideExcluded (start h) (end_ h) excluded = false.
Proof.
  induction ms as [|m ms IH]; intros acc h H; simpl in H; [now left|].
  apply IH in H as [H|(m' & H1 & H2)].
  - unfold autolinkStep in H.
    destruct (isInsideExcluded (start (rangeOf m)) (end_ (rangeOf m)) excluded) eqn:E2;
      rewrite ?andb_false_r in H; simpl in H; [now left|].
    destruct (_ && _) in H; [|now left].
    apply in_app_or in H as [H|[<-|[]]]; [now left|].
    right. exists m. simpl. auto.
  - right. exists m'. simpl. auto.
Qed.

(** Every collected hit is the span of a match of one of the three link
    patterns, and passed the exclusion test. *)
Lemma collectHits_In markdown excluded h :
  In h (collectHits markdown excluded) ->
  (exists re m, In re [inlineLinkRE; refLinkRE; autolinkRE]
                /\ In m (matchAll re markdown) /\ h = rangeOf m)
  /\ isInsideExcluded (start h) (end_ h) excluded = false.
Proof.
  unfold collectHits. intros H.
  apply autolinkStep_In in H as [H|(m & H1 & H2 & H3)].
  - apply linkStep_In in H as [H|(m & H1 & H2 & _ & H3)].
    + apply linkStep_In in H as [[]|(m & H1 & H2 & _ & H3)].
      split; [|assumption]. exists inlineLinkRE, m. simpl. auto.
    + split; [|assumption]. exists refLinkRE, m. simpl. auto.
  - split; [|assumption]. exists autolinkRE, m. simpl. auto.
Qed.

Lemma keptHits_In markdown h :
  In h (keptHits markdown) ->
  (exists re m, In re [inlineLinkRE; refLinkRE; autolinkRE]
                /\ In m (matchAll re markdown) /\ h = rangeOf m)
  /\ isInsideExcluded (start h) (end_ h) (excludedRanges markdown) = false.
Proof. unfold keptHits. rewrite sortHits_In. apply collectHits_In. Qed.

Lemma keptHits_bounds markdown h :
  In h (keptHits markdown) -> start h <= end_ h /\ end_ h <= length markdown.
Proof.
  intros H. apply keptHits_In in H as [(re & m & _ & Hm & ->) _].
  apply matchAll_bounds in Hm. unfold matchEnd in Hm. simpl. lia.
Qed.


Lemma intersects_false a b :
  intersects a b = false <-> end_ a <= start b \/ end_ b <= start a.
Proof.
  unfold intersects. rewrite negb_false_iff, orb_true_iff, !Nat.leb_le. tauto.
Qed.

(** Length of the text built over hits that do not overlap. *)
Lemma build_length markdown hits :
  forall result cursor i,
    noOverlapFrom cursor hits ->
    (forall h, In h hits -> start h <= end_ h /\ end_ h <= length markdown) ->
    cursor <= length markdown ->
    forall r c j, fold_left (buildStep markdown) hits (result, cursor, i) = (r, c, j) ->
      length r + (length markdown - c) + totalSpans hits
      = length result + (length markdown - cursor) + markersFrom i hits
      /\ c <= length markdown.
Proof.
  induction hits as [|h hits IH]; intros result cursor i Hno Hb Hc r c j H; cbn in *.
  - injection H as <- <- <-. lia.
  - destruct Hno as [Hs Hno].
    destruct (Hb h (or_introl eq_refl)) as [Hb1 Hb2].
    apply IH in H; auto.
    destruct H as [H Hc'].
    split; [|assumption].
    rewrite !length_app in H. unfold slice in H.
    rewrite length_take, length_drop in H.
    unfold spanLength at 1. lia.
Qed.

Lemma buildReplaced_length markdown hits :
  NoOverlap hits ->
  (forall h, In h hits -> start h <= end_ h /\ end_ h <= length markdown) ->
  length (buildReplaced markdown hits) + totalSpans hits
  = length markdown + totalMarkers hits.
Proof.
  intros Hno Hb. unfold buildReplaced.
  destruct (fold_left (buildStep markdown) hits ([], 0, 0)) as [[r c] j] eqn:E.
  eapply build_length in E; eauto; [|lia].
  rewrite length_app. unfold sliceFrom. rewrite length_drop.
  unfold totalMarkers. simpl in E. lia.
Qed.

Lemma totalSpans_bound len hits :
  forall cursor, noOverlapFrom cursor hits ->
    (forall h, In h hits -> start h <= end_ h /\ end_ h <= len) ->
    cursor <= len ->
    cursor + totalSpans hits <= len.
Proof.
  induction hits as [|h hits IH]; intros cursor Hno Hb Hc; simpl in *.
  - lia.
  - destruct Hno as [Hs Hno].
    destruct (Hb h (or_introl eq_refl)) as [Hb1 Hb2].
    specialize (IH (end_ h) Hno (fun h0 H0 => Hb h0 (or_intror H0)) Hb2).
    unfold spanLength at 1. lia.
Qed.

Lemma insertHit_sorted h l :
  forall lo, lo <= start h -> sortedFrom lo l -> sortedFrom lo (insertHit h l).
Proof.
  induction l as [|x l IH]; intros lo Hlo Hl; simpl in *.
  - auto.
  - destruct Hl as [Hx Hl]. destruct (start h <=? start x) eqn:E; simpl.
    + apply Nat.leb_le in E. auto.
    + apply Nat.leb_gt in E. split; [assumption|]. apply IH; [lia|assumption].
Qed.

(** The hits are replaced in the order of their starts. *)
Lemma sortHits_sorted l : sortedFrom 0 (sortHits l).
Proof.
  induction l as [|h l IH]; simpl; [exact I|]. apply insertHit_sorted; [lia|assumption].
Qed.

Lemma sortedFrom_In lo l h : sortedFrom lo l -> In h l -> lo <= start h.
Proof.
  revert lo. induction l as [|x l IH]; intros lo Hl Hin; [contradiction|].
  destruct Hl as [Hx Hl]. destruct Hin as [->|Hin]; [assumption|].
  apply (IH _ Hl) in Hin. lia.
Qed.

(** Every kept hit has at least one code unit. *)
Lemma keptHits_nonempty markdown h : In h (keptHits markdown) -> start h < end_ h.
Proof.
  intros H. apply keptHits_In in H as [(re & m & Hre & Hm & ->) _].
  apply matchAll_In in Hm as (pre & post & _ & _ & Hm).
  apply matchAt_minLength in Hm. simpl.
  destruct Hre as [<-|[<-|[<-|[]]]].
  - change (minLength inlineLinkRE) with 5 in Hm. lia.
  - change (minLength refLinkRE) with 5 in Hm. lia.
  - change (minLength autolinkRE) with 3 in Hm. lia.
Qed.

(** Sorted hits that do not intersect pairwise follow one another. *)
Lemma disjoint_noOverlap l :
  forall lo cursor,
    sortedFrom lo l ->
    (forall h, In h l -> start h < end_ h) ->
    (forall h, In h l -> cursor <= start h) ->
    PairwiseDisjoint l -> noOverlapFrom cursor l.
Proof.
  induction l as [|x l IH]; intros lo cursor Hs Hne Hc Hd; simpl; [exact I|].
  destruct Hs as [Hx Hs]. inversion Hd as [|? ? Hxl Hd']; subst.
  split; [apply Hc; now left|].
  apply (IH (start x)); auto.
  - intros h Hh. apply Hne. now right.
  - intros h Hh.
    pose proof (sortedFrom_In _ _ _ Hs Hh) as Hle.
    pose proof (Hne h (or_intror Hh)) as Hlt.
    rewrite List.Forall_forall in Hxl. apply Hxl in Hh.
    apply intersects_false in Hh. lia.
Qed.

Lemma keptHits_noOverlap markdown :
  PairwiseDisjoint (keptHits markdown) -> NoOverlap (keptHits markdown).
Proof.
  intros H. apply (disjoint_noOverlap _ 0); auto.
  - apply sortHits_sorted.
  - apply keptHits_nonempty.
  - intros. lia.
Qed.

Lemma buildReplaced_nil markdown : buildReplaced markdown [] = markdown.
Proof. reflexivity. Qed.

Lemma linkStep_all_images excluded ms :
  (forall m, In m ms -> startsWith (ch "!") (text m) = true) ->
  forall acc, fold_left (linkStep excluded) ms acc = acc.
Proof.
  induction ms as [|m ms IH]; intros H acc; [reflexivity|]. cbn [fold_left].
  unfold linkStep at 2. rewrite (H m (or_introl eq_refl)).
  apply IH. intros m' Hm'. apply H. now right.
Qed.

End RewriterFacts.

Section ExclusionFacts.

Lemma pushUnlessExcluded_grows ms :
  forall acc r, In r acc ->
    In r (fold_left (fun ex m => pushUnlessExcluded ex ex m) ms acc).
Proof.
  induction ms as [|m ms IH]; intros acc r H; simpl; [assumption|].
  apply IH. unfold pushUnlessExcluded. destruct (negb _); [|assumption].
  apply in_or_app. now left.
Qed.

Lemma isInsideExcluded_app s e l1 l2 :
  isInsideExcluded s e (l1 ++ l2) = isInsideExcluded s e l1 || isInsideExcluded s e l2.
Proof. unfold isInsideExcluded. apply existsb_app. Qed.

Lemma isInsideExcluded_before s e l :
  (forall r, In r l -> end_ r <= s) -> isInsideExcluded s e l = false.
Proof.
  intros H. unfold isInsideExcluded.
  destruct (existsb _ l) eqn:E; [|reflexivity].
  apply existsb_exists in E as (r & Hr & Hi). apply H in Hr.
  unfold intersects in Hi. simpl in Hi.
  apply negb_true_iff, orb_false_iff in Hi as [_ Hi]. apply Nat.leb_gt in Hi. lia.
Qed.

(** An inline-code match that touches none of the spans [base] already
    there is added: the spans added before it in the loop end before it
    starts. *)
Lemma inlineCode_pushed base ms :
  forall from extra m,
    chained from ms ->
    (forall r, In r extra -> end_ r <= from) ->
    In m ms ->
    isInsideExcluded (start (rangeOf m)) (end_ (rangeOf m)) base = false ->
    In (rangeOf m) (fold_left (fun ex m => pushUnlessExcluded ex ex m) ms (base ++ extra)).
Proof.
  induction ms as [|m0 ms IH]; intros from extra m Hch Hex Hin Hbase; [contradiction|].
  destruct Hch as [Hfrom Hch]. cbn [fold_left].
  destruct Hin as [->|Hin].
  - apply pushUnlessExcluded_grows. unfold pushUnlessExcluded.
    rewrite isInsideExcluded_app, Hbase, isInsideExcluded_before.
    + simpl. apply in_or_app. right. now left.
    + intros r Hr. apply Hex in Hr. simpl. lia.
  - unfold pushUnlessExcluded at 2.
    destruct (negb _).
    + rewrite <- app_assoc. eapply IH; eauto.
      intros r Hr. apply in_app_or in Hr as [Hr|[<-|[]]].
      * apply Hex in Hr. lia.
      * simpl. unfold matchEnd. lia.
    + eapply IH; eauto. intros r Hr. apply Hex in Hr. lia.
Qed.

(** What is in [excluded] at the end of the three loops: every fenced
    block, every definition line, and every inline-code span that touches
    no fenced block. *)
Lemma excludedRanges_complete markdown m :
  In m (matchAll fencedRE markdown)
  \/ In m (matchAll defLineRE markdown)
  \/ (In m (matchAll inlineCodeRE markdown)
      /\ isInsideExcluded (start (rangeOf m)) (end_ (rangeOf m)) (fencedRanges markdown) = false) ->
  In (rangeOf m) (excludedRanges markdown).
Proof.
  unfold excludedRanges, withDefLines, withInlineCode. rewrite pushRange_In.
  intros [H|[H|[H1 H2]]].
  - left. apply pushUnlessExcluded_grows. unfold fencedRanges. rewrite pushRange_In. eauto.
  - eauto.
  - left. rewrite <- (app_nil_r (fencedRanges markdown)).
    eapply (inlineCode_pushed _ _ 0); eauto.
    + apply (scanAll_chained inlineCodeRE markdown 0 []).
    + intros r [].
Qed.

End ExclusionFacts.

(** ** Markers and images *)

Section MarkerFacts.

Lemma countChar_cons c x s :
  countChar c (x :: s) = (if N.eqb c x then 1 else 0) + countChar c s.
Proof. unfold countChar. simpl. now destruct (N.eqb c x). Qed.

Lemma digitsOfUint_digits d : Forall (fun c => isAsciiDigit c = true) (digitsOfUint d).
Proof. induction d; simpl; constructor; auto. Qed.



Lemma first_occurrence_unique (c : char) a :
  forall b a' b', a ++ c :: b = a' ++ c :: b' ->
                  countChar c a = 0 -> countChar c a' = 0 -> a = a' /\ b = b'.
Proof.
  induction a as [|x a IH]; intros b [|y a'] b' H Ha Ha'; simpl in H.
  - injection H as ->. auto.
  - injection H as <- _. rewrite countChar_cons, N.eqb_refl in Ha'. lia.
  - injection H as -> _. rewrite countChar_cons, N.eqb_refl in Ha. lia.
  - injection H as -> H. rewrite countChar_cons in Ha, Ha'.
    destruct (IH _ _ _ H) as [-> ->]; [lia|lia|auto].
Qed.




End MarkerFacts.

Section ImageFacts.

Variables alt url : jsstring.
Hypothesis alt_no_open : countChar (ch "[") alt = 0.
Hypothesis url_no_open : countChar (ch "[") url = 0.

(** The only ['['] of the image is the one after the ['!']. *)
Lemma image_only_bracket pre tail :
  imageSyntax alt url = pre ++ ch "[" :: tail ->
  pre = [ch "!"] /\ tail = alt ++ ch "]" :: ch "(" :: url ++ [ch ")"].
Proof.
  intros H.
  assert (Hc : countChar (ch "[") (imageSyntax alt url) = 1).
  { unfold imageSyntax. rewrite !countChar_cons, countChar_app, !countChar_cons,
      countChar_app, alt_no_open, url_no_open. reflexivity. }
  rewrite H, countChar_app, countChar_cons, N.eqb_refl in Hc.
  change (imageSyntax alt url) with ([ch "!"] ++ ch "[" :: alt ++ ch "]" :: ch "(" :: url ++ [ch ")"]) in H.
  symmetry in H. apply first_occurrence_unique in H; [assumption|lia|reflexivity].
Qed.

End ImageFacts.

Section ImageMatches.

Lemma run_optChar_skip {A} c R sn x rs cs (k : mstate -> option A) :
  N.eqb c x = false ->
  run (Seq (optChar c) R) (MState sn (x :: rs) cs) k = run R (MState sn (x :: rs) cs) k.
Proof. intros E. simpl. rewrite E. reflexivity. Qed.

Lemma run_optChar_take {A} c R sn x rs cs (k : mstate -> option A) :
  N.eqb c x = false ->
  run (Seq (optChar c) R) (MState sn (c :: x :: rs) cs) k
  = orElse (run R (MState (c :: sn) (x :: rs) cs) k)
           (fun _ => run R (MState sn (c :: x :: rs) cs) k).
Proof. intros E. simpl. rewrite N.eqb_refl, E. reflexivity. Qed.

Lemma run_bang_first R tail st :
  run (Seq (optChar (ch "!")) R) (MState [ch "!"] (ch "[" :: tail) []) Some = Some st ->
  run (Seq (optChar (ch "!")) R) (MState [] (ch "!" :: ch "[" :: tail) []) Some = Some st.
Proof.
  rewrite run_optChar_skip by reflexivity.
  rewrite run_optChar_take by reflexivity.
  intros ->. reflexivity.
Qed.

Lemma matchAt_bang_first tail m :
  matchAt inlineLinkRE [ch "!"] (ch "[" :: tail) = Some m ->
  exists m0, matchAt inlineLinkRE [] (ch "!" :: ch "[" :: tail) = Some m0.
Proof.
  unfold matchAt, inlineLinkRE. cbn [seqs].
  destruct (run _ (MState [ch "!"] _ _) Some) as [st|] eqn:E; [|discriminate].
  intros _. apply run_bang_first in E. rewrite E. eauto.
Qed.

Variables alt url : jsstring.
Hypothesis alt_no_open : countChar (ch "[") alt = 0.
Hypothesis url_no_open : countChar (ch "[") url = 0.

(** Every match of the rewriter's inline pattern in the image starts with
    the ['!']. *)
Lemma image_inline_matches m :
  In m (matchAll inlineLinkRE (imageSyntax alt url)) ->
  startsWith (ch "!") (text m) = true.
Proof.
  intros Hin. pose proof Hin as Hm.
  apply matchAll_In in Hm as (pre & post & Hdoc & Hidx & Hat).
  pose proof Hat as Hs. apply matchAt_sound in Hs as (st' & Hs & _).
  unfold inlineLinkRE in Hs. unfold_matches Hs.
  destruct Hs as (_ & w0 & w1 & mid & Hw & (_ & Hbang & _ & Hmax & _) & _ & Hrest).
  destruct Hrest as (w2 & w3 & mid2 & -> & (_ & -> & _) & _).
  destruct w0 as [|x [|y w0]]; cbn [length] in Hmax; [| |simpl in Hmax; lia].
  - exfalso. cbn [app] in Hw. rewrite Hw in Hdoc, Hat. cbn [app] in Hdoc, Hat.
    destruct (image_only_bracket alt url alt_no_open url_no_open _ _ Hdoc) as [-> Htail].
    cbn [rev app] in Hat. destruct (matchAt_bang_first _ _ Hat) as [m0 Hm0].
    pose proof (scanAll_chained inlineLinkRE (imageSyntax alt url) 0 []) as Hch.
    unfold matchAll, imageSyntax in Hin, Hch.
    cbn [scanAll] in Hin, Hch.
    rewrite <- Htail in Hin, Hch. rewrite Hm0 in Hin, Hch.
    destruct Hch as [_ Hch].
    pose proof (matchAt_minLength _ _ _ _ Hm0) as Hlen.
    pose proof (matchAt_index _ _ _ _ Hm0) as Hi0.
    change (minLength inlineLinkRE) with 5 in Hlen.
    destruct Hin as [<-|Hin].
    + cbn [length] in Hidx, Hi0. lia.
    + apply (chained_later _ _ _ Hch) in Hin. unfold matchEnd in Hin.
      cbn [length] in Hidx. lia.
  - rewrite Hw. cbn [app startsWith]. inversion Hbang as [|? ? Hx _]; subst.
    now rewrite N.eqb_sym.
Qed.

(** Every match of the extractor's inline pattern in the image is a match
    of its image alternative. *)
Lemma image_inline_groups m :
  In m (matchAll inlineLinkRe (imageSyntax alt url)) -> is_Some (group 3 m).
Proof.
  intros Hm. apply matchAll_In in Hm as (pre & post & Hdoc & Hidx & Hat).
  apply matchAt_sound in Hat as (st' & Hs & _ & Hg).
  unfold group. rewrite Hg. unfold inlineLinkRe in Hs. cbn [matches] in Hs.
  destruct Hs as [_ [Hs|Hs]]; [exfalso|eapply matches_defines; [|exact Hs]; reflexivity].
  unfold_matches Hs.
  destruct Hs as (_ & w0 & w1 & mid & Hw & (Ha & -> & _ & Hnot) & _ & Hrest).
  destruct Hrest as (w2 & w3 & mid2 & -> & (_ & -> & _) & _).
  cbn [app] in Hw. rewrite Hw in Hdoc. cbn [app] in Hdoc.
  destruct (image_only_bracket alt url alt_no_open url_no_open _ _ Hdoc) as [-> _].
  discriminate Hnot.
Qed.

Hypothesis alt_no_angle : countChar (ch "<") alt = 0.
Hypothesis url_no_angle : countChar (ch "<") url = 0.

Lemma image_count_open : countChar (ch "[") (imageSyntax alt url) = 1.
Proof.
  unfold imageSyntax. rewrite !countChar_cons, countChar_app, !countChar_cons,
    countChar_app, alt_no_open, url_no_open. reflexivity.
Qed.

Lemma image_count_angle : countChar (ch "<") (imageSyntax alt url) = 0.
Proof.
  unfold imageSyntax. rewrite !countChar_cons, countChar_app, !countChar_cons,
    countChar_app, alt_no_angle, url_no_angle. reflexivity.
Qed.

(** The rewriter finds no hit in the image. *)
Lemma image_no_hits : keptHits (imageSyntax alt url) = [].
Proof.
  unfold keptHits, collectHits.
  rewrite (linkStep_all_images _ _ image_inline_matches).
  rewrite (matchAll_needs_char (ch "[") refLinkRE)
    by (rewrite image_count_open; vm_compute; lia).
  rewrite (matchAll_needs_char (ch "<") autolinkRE)
    by (rewrite image_count_angle; vm_compute; lia).
  reflexivity.
Qed.

(** The extractor finds no occurrence in the image. *)
Lemma image_no_occurrence toLowerCase :
  extractMarkdownLinks toLowerCase (imageSyntax alt url) = Ok [].
Proof.
  rewrite extract_reading.
  unfold inlineOccurrences, autolinkOccurrences, refOccurrences.
  rewrite (matchAll_needs_char (ch "[") refLinkRe)
    by (rewrite image_count_open; vm_compute; lia).
  rewrite (matchAll_needs_char (ch "<") autolinkRe)
    by (rewrite image_count_angle; vm_compute; lia).
  rewrite located_nil; [reflexivity|].
  intros m Hm. unfold inlineOccurrence.
  destruct (image_inline_groups m Hm) as [g ->]. reflexivity.
Qed.

End ImageMatches.

(** ** The documents of the specification, run through the model *)

Section Examples.

Example extract_inline_then_autolink :
  extractMarkdownLinks asciiLower (str "See [Docs](https://a.test/x) and <https://a.test/y>.")
  = Ok [ {| title := str "Docs"; url := str "https://a.test/x" |};
         {| title := []; url := str "https://a.test/y" |} ].
Proof. vm_compute. reflexivity. Qed.

Example extract_reference :
  extractMarkdownLinks asciiLower
    (str "[Ref][1]" ++ [10; 10]%N ++ str "[1]: https://a.test/z "
     ++ [quoteChar] ++ str "T" ++ [quoteChar])
  = Ok [ {| title := str "Ref"; url := str "https://a.test/z" |} ].
Proof. vm_compute. reflexivity. Qed.

Example extract_last_definition_wins :
  extractMarkdownLinks asciiLower
    (str "[Ref][]" ++ [10%N] ++ str "  [REF]: http://first  " ++ [10%N] ++ str "[ref]: http://last")
  = Ok [ {| title := str "Ref"; url := str "http://last" |} ].
Proof. vm_compute. reflexivity. Qed.

Example extract_inline_targets :
  extractMarkdownLinks asciiLower
    (str "[a](http://x 'title') [b]( <http://y z> 't') [c](<>) [d](   )")
  = Ok [ {| title := str "a"; url := str "http://x" |};
         {| title := str "b"; url := str "http://y z" |} ].
Proof. vm_compute. reflexivity. Qed.

Example rewrite_skips_inline_code :
  replaceMarkdownLinksWithOrder (str "code: `[x](y)` and real [x](y)")
  = str "code: `[x](y)` and real [1]".
Proof. vm_compute. reflexivity. Qed.

Example rewrite_keeps_definition_line :
  replaceMarkdownLinksWithOrder (str "[1]: https://a.test/z") = str "[1]: https://a.test/z".
Proof. vm_compute. reflexivity. Qed.

Example rewrite_skips_closed_fence :
  replaceMarkdownLinksWithOrder closedFenceDoc
  = str "```" ++ [10%N] ++ str "[a](b)" ++ [10%N] ++ str "```" ++ [10%N] ++ str "[1]".
Proof. vm_compute. reflexivity. Qed.

Example rewrite_numbers_in_text_order :
  replaceMarkdownLinksWithOrder (str "<me@x.org> [c](d) ![i](j) [k][l] <notalink> <http://u>")
  = str "[1] [2] ![i](j) [3] <notalink> [4]".
Proof. vm_compute. reflexivity. Qed.

End Examples.

(** ** Further facts: trimming *)

Section TrimFacts.

Lemma trimStart_nonws c t : isWhiteSpace c = false -> trimStart (c :: t) = c :: t.
Proof. intros H. simpl. now rewrite H. Qed.

Lemma trimStart_head s :
  trimStart s = [] \/ exists c t, trimStart s = c :: t /\ isWhiteSpace c = false.
Proof.
  induction s as [|c s IH]; simpl; [now left|].
  destruct (isWhiteSpace c) eqn:E; [assumption|]. right. eauto.
Qed.

Lemma trimStart_idem s : trimStart (trimStart s) = trimStart s.
Proof.
  destruct (trimStart_head s) as [->|(c & t & -> & H)]; [reflexivity|].
  now apply trimStart_nonws.
Qed.

Lemma trimStart_suffix s : exists pre, s = pre ++ trimStart s.
Proof.
  induction s as [|c s [pre IH]]; simpl; [now exists []|].
  destruct (isWhiteSpace c); [|now exists []].
  exists (c :: pre). simpl. now rewrite <- IH.
Qed.

Lemma trimStart_last l c :
  isWhiteSpace c = false -> exists l', trimStart (l ++ [c]) = l' ++ [c].
Proof.
  intros H. induction l as [|x l [l' IH]]; simpl.
  - rewrite H. now exists [].
  - destruct (isWhiteSpace x); [eauto|]. now exists (x :: l).
Qed.

Lemma trimEnd_head c t :
  isWhiteSpace c = false -> exists t', trimEnd (c :: t) = c :: t'.
Proof.
  intros H. unfold trimEnd. simpl.
  destruct (trimStart_last (rev t) c H) as [l' ->].
  rewrite rev_app_distr. simpl. eauto.
Qed.

Lemma trimEnd_idem s : trimEnd (trimEnd s) = trimEnd s.
Proof. unfold trimEnd. now rewrite rev_involutive, trimStart_idem. Qed.

Lemma trimEnd_prefix s : exists post, s = trimEnd s ++ post.
Proof.
  unfold trimEnd. destruct (trimStart_suffix (rev s)) as [pre E].
  exists (rev pre). apply (f_equal (@rev N)) in E.
  rewrite rev_involutive, rev_app_distr in E. exact E.
Qed.

(** What [trim] returns is empty or starts with a code unit that is not
    white space. *)
Lemma trim_head s :
  trim s = [] \/ exists c t, trim s = c :: t /\ isWhiteSpace c = false.
Proof.
  unfold trim. destruct (trimStart_head s) as [->|(c & t & -> & H)]; [now left|].
  right. destruct (trimEnd_head c t H) as [t' ->]. eauto.
Qed.

Lemma trim_idem s : trim (trim s) = trim s.
Proof.
  destruct (trim_head s) as [->|(c & t & E & H)]; [reflexivity|].
  unfold trim at 1. rewrite E, (trimStart_nonws c t H), <- E.
  unfold trim. apply trimEnd_idem.
Qed.

Lemma trim_noWhiteSpace s : noWhiteSpace s -> trim s = s.
Proof.
  intros H. unfold trim.
  assert (Hs : forall l, noWhiteSpace l -> trimStart l = l).
  { intros [|c l] Hl; [reflexivity|]. inversion Hl; subst. now apply trimStart_nonws. }
  rewrite (Hs s H). unfold trimEnd. rewrite Hs, rev_involutive; [reflexivity|].
  unfold noWhiteSpace in *. rewrite List.Forall_forall in *.
  intros x Hx. apply H. now apply in_rev.
Qed.

Lemma splitWsFirst_spec s :
  noWhiteSpace (splitWsFirst s) /\ exists post, s = splitWsFirst s ++ post.
Proof.
  induction s as [|c s [IH1 [post IH2]]]; simpl.
  - split; [constructor|now exists []].
  - destruct (isWhiteSpace c) eqn:E.
    + split; [constructor|]. now exists (c :: s).
    + split; [now constructor|]. exists post. simpl. now rewrite <- IH2.
Qed.

End TrimFacts.

(** ** Further facts: the extractor *)

Section MoreExtractorFacts.

Lemma push_In t u x : In x (push t u []) -> title x = t /\ url x = u.
Proof. destruct u; simpl; [tauto|]. intros [<-|[]]. auto. Qed.

Lemma located_In f ms o x :
  In (o, x) (located f ms) <-> exists m, In m ms /\ index m = o /\ In x (f m).
Proof.
  unfold located. rewrite in_flat_map. split.
  - intros (m & Hm & H). apply in_map_iff in H as (y & E & Hy).
    injection E as <- <-. eauto.
  - intros (m & Hm & <- & H). exists m. split; [assumption|].
    apply in_map_iff. eauto.
Qed.

Lemma countChar_le_app c pre s post : countChar c s <= countChar c (pre ++ s ++ post).
Proof. rewrite !countChar_app. lia. Qed.

Lemma countChar_trim c s : countChar c (trim s) <= countChar c s.
Proof.
  unfold trim. destruct (trimStart_suffix s) as [pre E].
  destruct (trimEnd_prefix (trimStart s)) as [post E'].
  rewrite E at 2. rewrite E' at 2. apply countChar_le_app.
Qed.

Lemma indexOf_before c s n : indexOf c s = Some n -> countChar c (firstn n s) = 0.
Proof.
  revert n. induction s as [|x s IH]; intros n H; simpl in H; [discriminate|].
  destruct (N.eqb x c) eqn:E.
  - injection H as <-. reflexivity.
  - destruct (indexOf c s) as [k|]; [|discriminate]. injection H as <-.
    simpl. rewrite countChar_cons, N.eqb_sym, E. now rewrite IH.
Qed.

Lemma countChar_firstn c n s : countChar c (firstn n s) <= countChar c s.
Proof. rewrite <- (take_drop n s) at 2. rewrite countChar_app. lia. Qed.

Lemma countChar_skipn c n s : countChar c (skipn n s) <= countChar c s.
Proof. rewrite <- (take_drop n s) at 2. rewrite countChar_app. lia. Qed.

Lemma inlineUrl_trimmed inside : trim (inlineUrl inside) = inlineUrl inside.
Proof.
  unfold inlineUrl. destruct (startsWith _ inside); [|apply trim_idem].
  destruct (indexOf _ inside) as [gt|]; [|apply trim_idem].
  destruct (0 <? gt); apply trim_idem.
Qed.

Lemma inRange_spec lo hi c : inRange lo hi c = true <-> (lo <= c <= hi)%N.
Proof. unfold inRange. rewrite andb_true_iff, !N.leb_le. tauto. Qed.

Lemma isWhiteSpace_outside c : (33 <= c <= 159)%N -> isWhiteSpace c = false.
Proof.
  intros H. unfold isWhiteSpace, oneOf, inRange. cbn [existsb].
  repeat match goal with
  | |- context [N.eqb c ?k] =>
      replace (N.eqb c k) with false by (symmetry; apply N.eqb_neq; lia)
  end.
  replace (8192 <=? c)%N with false by (symmetry; apply N.leb_gt; lia).
  reflexivity.
Qed.

Lemma schemeChar_nonws c : schemeChar c = true -> isWhiteSpace c = false.
Proof.
  intros H. apply isWhiteSpace_outside.
  unfold schemeChar, isAsciiLetter, isAsciiDigit, oneOf in H. cbn [existsb] in H.
  rewrite !orb_true_iff, !inRange_spec, !N.eqb_eq in H.
  change (ch "a") with 97%N in H. change (ch "z") with 122%N in H.
  change (ch "A") with 65%N in H. change (ch "Z") with 90%N in H.
  change (ch "0") with 48%N in H. change (ch "9") with 57%N in H.
  change (ch "+") with 43%N in H. change (ch ".") with 46%N in H.
  change (ch "-") with 45%N in H.
  lia.
Qed.

End MoreExtractorFacts.

Section MoreExtractorFacts2.

Lemma isAsciiLetter_scheme c : isAsciiLetter c = true -> schemeChar c = true.
Proof. intros H. unfold schemeChar. now rewrite H. Qed.

(** A match of the extractor's autolink pattern: the brackets, and between
    them the group, which has a colon and no white space. *)
Lemma autolinkRe_shape sn rs m :
  matchAt autolinkRe sn rs = Some m ->
  exists g, group 1 m = Some g /\ text m = ch "<" :: g ++ [ch ">"]
            /\ noWhiteSpace g /\ 1 <= countChar (ch ":") g.
Proof.
  intros H. apply matchAt_sound in H as (st' & H & _ & Hg).
  unfold group. rewrite Hg. clear Hg.
  unfold autolinkRe in H. unfold_matches H. break_matches; subst. chase_captures.
  match goal with
  | H : text m = [ch "<"] ++ ?g ++ [ch ">"] |- _ => exists g; rewrite H
  end.
  split; [reflexivity|]. split; [reflexivity|]. split.
  - unfold noWhiteSpace. repeat (apply Forall_app; split).
    + constructor; [|constructor]. now apply schemeChar_nonws, isAsciiLetter_scheme.
    + eapply List.Forall_impl; [|eassumption]. intros c Hc. now apply schemeChar_nonws.
    + constructor; [reflexivity|constructor].
    + eapply List.Forall_impl; [|eassumption]. cbv beta. intros c Hc.
      apply negb_true_iff, orb_false_iff in Hc. tauto.
  - rewrite !countChar_app. change (countChar (ch ":") [ch ":"]) with 1. lia.
Qed.

Variable toLowerCase : jsstring -> jsstring.

Lemma harvest_fold ms k v :
  forall acc : gmap jsstring jsstring,
    fold_left (harvestStep toLowerCase) ms acc !! k = Some v ->
    acc !! k = Some v
    \/ exists d, In d ms /\ defKey toLowerCase d = k /\ defUrl d = v.
Proof.
  induction ms as [|d ms IH]; intros acc H; simpl in H; [now left|].
  apply IH in H as [H|(d' & H1 & H2)].
  - unfold harvestStep in H. fold (defKey toLowerCase d) in H. fold (defUrl d) in H.
    destruct (decide (defKey toLowerCase d = k)) as [E|E].
    + subst k. rewrite lookup_insert_eq in H. injection H as <-.
      right. exists d. simpl. auto.
    + rewrite lookup_insert_ne in H by assumption. now left.
  - right. exists d'. simpl. tauto.
Qed.

(** Every entry of the lookup comes from a definition line. *)
Lemma harvested_origin markdown k v :
  harvested toLowerCase markdown !! k = Some v ->
  exists d, In d (matchAll refDefRe markdown)
            /\ defKey toLowerCase d = k /\ defUrl d = v.
Proof.
  intros H. apply harvest_fold in H as [H|H]; [|assumption].
  rewrite lookup_empty in H. discriminate.
Qed.

Lemma harvest_fold_other ms k :
  (forall d, In d ms -> defKey toLowerCase d <> k) ->
  forall acc : gmap jsstring jsstring,
    fold_left (harvestStep toLowerCase) ms acc !! k = acc !! k.
Proof.
  induction ms as [|d ms IH]; intros Hk acc; simpl; [reflexivity|].
  rewrite IH by (intros d' Hd'; apply Hk; now right).
  unfold harvestStep. apply lookup_insert_ne. apply Hk. now left.
Qed.

(** The last definition line of an id is the one the lookup keeps. *)
Lemma harvested_last_wins markdown ms1 d ms2 :
  matchAll refDefRe markdown = ms1 ++ d :: ms2 ->
  (forall d', In d' ms2 -> defKey toLowerCase d' <> defKey toLowerCase d) ->
  harvested toLowerCase markdown !! defKey toLowerCase d = Some (defUrl d).
Proof.
  intros E Hk. unfold harvested. rewrite E, fold_left_app. simpl.
  rewrite harvest_fold_other by assumption.
  unfold harvestStep. apply lookup_insert_eq.
Qed.

(** An id that no definition line declares is not in the lookup. *)
Lemma harvested_missing markdown k :
  (forall d, In d (matchAll refDefRe markdown) -> defKey toLowerCase d <> k) ->
  harvested toLowerCase markdown !! k = None.
Proof.
  intros Hk. unfold harvested. rewrite harvest_fold_other by assumption.
  apply lookup_empty.
Qed.

End MoreExtractorFacts2.

(** ** Further facts: the rewriter *)

Section MoreRewriterFacts.

Lemma insertHit_perm h l : Permutation (insertHit h l) (h :: l).
Proof.
  induction l as [|x l IH]; simpl; [reflexivity|].
  destruct (start h <=? start x); [reflexivity|].
  rewrite IH. apply perm_swap.
Qed.

Lemma sortHits_perm l : Permutation (sortHits l) l.
Proof.
  induction l as [|h l IH]; simpl; [reflexivity|].
  rewrite insertHit_perm. now constructor.
Qed.

(** [re.test(s)] answers yes only when some attempt in [s] succeeds. *)
Lemma searchFrom_sound re rs :
  forall sn m, searchFrom re sn rs = Some m ->
    exists sn' rs', matchAt re sn' rs' = Some m /\ rev sn' ++ rs' = rev sn ++ rs.
Proof.
  induction rs as [|c rs IH]; intros sn m H; simpl in H.
  - destruct (matchAt re sn []) eqn:E; [|discriminate]. injection H as <-. eauto.
  - destruct (matchAt re sn (c :: rs)) eqn:E.
    + injection H as <-. eauto.
    + apply IH in H as (sn' & rs' & H1 & H2). exists sn', rs'. split; [assumption|].
      rewrite H2. simpl. now rewrite <- app_assoc.
Qed.

Lemma test_minCount c re s : test re s = true -> minCount c re <= countChar c s.
Proof.
  unfold test. destruct (searchFrom re [] s) as [m|] eqn:E; [|discriminate]. intros _.
  apply searchFrom_sound in E as (sn' & rs' & H1 & H2). simpl in H2.
  pose proof (matchAt_minCount c _ _ _ _ H1) as Hc.
  destruct (matchAt_prefix _ _ _ _ H1) as [post Hp].
  rewrite <- H2, Hp, !countChar_app. lia.
Qed.

(** The shapes of the matches of the three link patterns. *)
Lemma inlineLinkRE_shape sn rs m :
  matchAt inlineLinkRE sn rs = Some m ->
  exists bang body,
    text m = bang ++ ch "[" :: body ++ [ch ")"] /\ (bang = [] \/ bang = [ch "!"]).
Proof.
  intros H. apply matchAt_sound in H as (st' & H & _).
  unfold inlineLinkRE in H. unfold_matches H. break_matches; subst.
  match goal with
  | H : text m = ?b ++ [ch "["] ++ ?x ++ [ch "]"] ++ [ch "("] ++ ?y ++ [ch ")"] |- _ =>
      exists b, (x ++ [ch "]"] ++ [ch "("] ++ y); rewrite H
  end.
  split; [now rewrite <- !app_assoc|].
  match goal with
  | H : Forall _ ?b, Hl : withinMax (Some 1) (length ?b) |- _ =>
      destruct b as [|c [|c' b']]; simpl in Hl; [now left| |lia];
      inversion H as [|? ? Hc _]; subst; apply N.eqb_eq in Hc; subst; now right
  end.
Qed.

Lemma refLinkRE_shape sn rs m :
  matchAt refLinkRE sn rs = Some m ->
  exists bang body,
    text m = bang ++ ch "[" :: body ++ [ch "]"] /\ (bang = [] \/ bang = [ch "!"]).
Proof.
  intros H. apply matchAt_sound in H as (st' & H & _).
  unfold refLinkRE in H. unfold_matches H. break_matches; subst.
  match goal with
  | H : text m = ?b ++ [ch "["] ++ ?x ++ [ch "]"] ++ [ch "["] ++ ?y ++ [ch "]"] |- _ =>
      exists b, (x ++ [ch "]"] ++ [ch "["] ++ y); rewrite H
  end.
  split; [now rewrite <- !app_assoc|].
  match goal with
  | H : Forall _ ?b, Hl : withinMax (Some 1) (length ?b) |- _ =>
      destruct b as [|c [|c' b']]; simpl in Hl; [now left| |lia];
      inversion H as [|? ? Hc _]; subst; apply N.eqb_eq in Hc; subst; now right
  end.
Qed.

Lemma autolinkRE_shape sn rs m :
  matchAt autolinkRE sn rs = Some m ->
  exists g, group 1 m = Some g /\ text m = ch "<" :: g ++ [ch ">"].
Proof.
  intros H. apply matchAt_sound in H as (st' & H & _ & Hg).
  unfold group. rewrite Hg. clear Hg.
  unfold autolinkRE in H. unfold_matches H. break_matches; subst. chase_captures.
  match goal with
  | H : text m = [ch "<"] ++ ?g ++ [ch ">"] |- _ => exists g; rewrite H
  end.
  split; reflexivity.
Qed.

End MoreRewriterFacts.

Section HitOrigins.

Lemma autolinkStep_origin excluded ms :
  forall acc h, In h (fold_left (autolinkStep excluded) ms acc) ->
    In h acc \/
    exists m, In m ms /\ h = rangeOf m
              /\ (test looksLikeUrlRE (default (str "undefined") (group 1 m))
                  || test looksLikeEmailRE (default (str "undefined") (group 1 m))) = true.
Proof.
  induction ms as [|m ms IH]; intros acc h H; simpl in H; [now left|].
  apply IH in H as [H|(m' & H1 & H2)].
  - unfold autolinkStep in H.
    destruct (test looksLikeUrlRE _ || test looksLikeEmailRE _) eqn:E1; [|now left].
    destruct (negb _) in H; simpl in H; [|now left].
    apply in_app_or in H as [H|[<-|[]]]; [now left|].
    right. exists m. simpl. auto.
  - right. exists m'. simpl. tauto.
Qed.

(** Where a kept hit comes from: a match of the inline or of the
    reference-style pattern that does not begin with ['!'], or a match of
    the autolink pattern whose inside looks like a URL or an email. *)
Lemma keptHits_origin markdown h :
  In h (keptHits markdown) ->
  exists m, h = rangeOf m /\
    ((In m (matchAll inlineLinkRE markdown) /\ startsWith (ch "!") (text m) = false)
     \/ (In m (matchAll refLinkRE markdown) /\ startsWith (ch "!") (text m) = false)
     \/ (In m (matchAll autolinkRE markdown)
         /\ (test looksLikeUrlRE (default (str "undefined") (group 1 m))
             || test looksLikeEmailRE (default (str "undefined") (group 1 m))) = true)).
Proof.
  unfold keptHits. rewrite sortHits_In. unfold collectHits. intros H.
  apply autolinkStep_origin in H as [H|(m & H1 & H2 & H3)].
  - apply linkStep_In in H as [H|(m & H1 & H2 & H3 & _)].
    + apply linkStep_In in H as [[]|(m & H1 & H2 & H3 & _)]. exists m. tauto.
    + exists m. tauto.
  - exists m. tauto.
Qed.

(** The text of a kept hit: brackets around something, never a leading
    ['!']; between angle brackets there is a [':'] or an ['@']. *)
Lemma keptHits_text markdown h :
  In h (keptHits markdown) ->
  exists body,
    spanText markdown h = ch "[" :: body ++ [ch ")"]
    \/ spanText markdown h = ch "[" :: body ++ [ch "]"]
    \/ (spanText markdown h = ch "<" :: body ++ [ch ">"]
        /\ (1 <= countChar (ch ":") body \/ 1 <= countChar (ch "@") body)).
Proof.
  intros H. apply keptHits_origin in H as (m & -> & H).
  unfold spanText.
  destruct H as [[Hm Hb]|[[Hm Hb]|[Hm Ht]]]; rewrite (rangeOf_slice _ _ _ Hm).
  - apply matchAll_In in Hm as (pre & post & _ & _ & Hm).
    apply inlineLinkRE_shape in Hm as (bang & body & E & [-> | ->]).
    + exists body. now left.
    + rewrite E in Hb. discriminate Hb.
  - apply matchAll_In in Hm as (pre & post & _ & _ & Hm).
    apply refLinkRE_shape in Hm as (bang & body & E & [-> | ->]).
    + exists body. right. now left.
    + rewrite E in Hb. discriminate Hb.
  - apply matchAll_In in Hm as (pre & post & _ & _ & Hm).
    apply autolinkRE_shape in Hm as (g & Hg & E).
    rewrite Hg in Ht. simpl in Ht. exists g. right. right. split; [assumption|].
    apply orb_true_iff in Ht as [Ht|Ht].
    + left. apply (test_minCount (ch ":")) in Ht. exact Ht.
    + right. apply (test_minCount (ch "@")) in Ht. exact Ht.
Qed.

(** Where an exclusion span comes from. *)
Lemma pushUnlessExcluded_In ms :
  forall acc r, In r (fold_left (fun ex m => pushUnlessExcluded ex ex m) ms acc) ->
    In r acc \/ exists m, In m ms /\ r = rangeOf m.
Proof.
  induction ms as [|m ms IH]; intros acc r H; simpl in H; [now left|].
  apply IH in H as [H|(m' & H1 & H2)].
  - unfold pushUnlessExcluded in H. destruct (negb _); [|now left].
    apply in_app_or in H as [H|[<-|[]]]; [now left|]. right. exists m. simpl. auto.
  - right. exists m'. simpl. auto.
Qed.

Lemma excludedRanges_origin markdown r :
  In r (excludedRanges markdown) ->
  exists m, r = rangeOf m
            /\ (In m (matchAll fencedRE markdown)
                \/ In m (matchAll inlineCodeRE markdown)
                \/ In m (matchAll defLineRE markdown)).
Proof.
  unfold excludedRanges, withDefLines, withInlineCode. rewrite pushRange_In.
  intros [H|(m & H1 & H2)]; [|eauto 6].
  apply pushUnlessExcluded_In in H as [H|(m & H1 & H2)]; [|eauto 6].
  unfold fencedRanges in H. apply pushRange_In in H as [[]|(m & H1 & H2)]. eauto 6.
Qed.

End HitOrigins.

(** ** The extractor and the rewriter find the same bracket links *)

Section EraseGroups.
Context {A B : Type} (R : A -> B -> Prop).

Lemma orElse_rel a1 a2 (b1 : unit -> option A) (b2 : unit -> option B) :
  optRel R a1 a2 -> optRel R (b1 tt) (b2 tt) -> optRel R (orElse a1 b1) (orElse a2 b2).
Proof. destruct a1, a2; simpl; tauto. Qed.

Lemma repeatClass_rel g p rs :
  forall lo hi sn (k1 : jsstring -> jsstring -> option A)
         (k2 : jsstring -> jsstring -> option B),
    (forall sn' rs', optRel R (k1 sn' rs') (k2 sn' rs')) ->
    optRel R (repeatClass g p lo hi sn rs k1) (repeatClass g p lo hi sn rs k2).
Proof.
  induction rs as [|c rs IH]; intros lo hi sn k1 k2 Hk.
  - simpl. destruct lo; [apply Hk|exact I].
  - assert (Hstop : optRel R (match lo with 0 => k1 sn (c :: rs) | S _ => None end)
                             (match lo with 0 => k2 sn (c :: rs) | S _ => None end))
      by (destruct lo; [apply Hk|exact I]).
    cbn [repeatClass]. destruct (p c && canTake hi); [|exact Hstop].
    destruct g; apply orElse_rel; auto.
Qed.

Lemma run_erase r :
  backrefFree r = true ->
  forall st1 st2 (k1 : mstate -> option A) (k2 : mstate -> option B),
    sameCursor st1 st2 ->
    (forall s1 s2, sameCursor s1 s2 -> optRel R (k1 s1) (k2 s2)) ->
    optRel R (run r st1 k1) (run (eraseGroups r) st2 k2).
Proof.
  induction r; intros Hb st1 st2 k1 k2 Hc Hk; pose proof Hc as [Hs Hr];
    cbn [run eraseGroups]; cbn [backrefFree] in Hb; try discriminate Hb.
  - apply Hk. exact Hc.
  - rewrite Hr. destruct (rest st2) as [|x rs]; [exact I|].
    destruct (N.eqb x c); [|exact I]. apply Hk. unfold sameCursor, step. cbn [seen rest]. now rewrite Hs.
  - rewrite Hr. destruct (rest st2) as [|x rs]; [exact I|].
    destruct (p x); [|exact I]. apply Hk. unfold sameCursor, step. cbn [seen rest]. now rewrite Hs.
  - apply andb_true_iff in Hb as [Hb1 Hb2].
    apply IHr1; [assumption|exact Hc|]. intros s1 s2 Hs12. now apply IHr2.
  - apply andb_true_iff in Hb as [Hb1 Hb2].
    apply orElse_rel; [apply IHr1|apply IHr2]; assumption.
  - rewrite Hs, Hr. apply repeatClass_rel. intros sn' rs'. apply Hk. now split.
  - apply IHr; [assumption|exact Hc|]. intros s1 s2 [H1 H2]. apply Hk. split; assumption.
  - unfold atLineStart. rewrite Hs. destruct (seen st2) as [|x ?];
      [|destruct (isLineTerminator x); [|exact I]]; apply Hk; exact Hc.
  - unfold atLineEnd. rewrite Hr. destruct (rest st2) as [|x ?];
      [|destruct (isLineTerminator x); [|exact I]]; apply Hk; exact Hc.
  - unfold atInputStart. rewrite Hs. destruct (seen st2); [|exact I]. apply Hk; exact Hc.
  - unfold atInputEnd. rewrite Hr. destruct (rest st2); [|exact I]. apply Hk; exact Hc.
  - unfold notPrecededBy. rewrite Hs. destruct (seen st2) as [|x ?];
      [|destruct (negb (N.eqb x c)); [|exact I]]; apply Hk; exact Hc.
Qed.

End EraseGroups.

Section SpanFacts.

Lemma matchAt_erase re sn rs :
  backrefFree re = true ->
  option_map span (matchAt re sn rs) = option_map span (matchAt (eraseGroups re) sn rs).
Proof.
  intros Hb. unfold matchAt.
  pose proof (run_erase sameCursor re Hb (MState sn rs []) (MState sn rs []) Some Some
                (conj eq_refl eq_refl) (fun s1 s2 H => H)) as H.
  destruct (run re _ Some) as [s1|], (run (eraseGroups re) _ Some) as [s2|];
    simpl in H; try contradiction; [|reflexivity].
  destruct H as [H1 H2]. unfold span, position. simpl. now rewrite H1.
Qed.

Lemma scanAll_erase re rs :
  backrefFree re = true ->
  forall skip sn,
    map span (scanAll re skip sn rs) = map span (scanAll (eraseGroups re) skip sn rs).
Proof.
  intros Hb. induction rs as [|c rs IH]; intros skip sn; cbn [scanAll].
  - destruct skip; [|reflexivity].
    pose proof (matchAt_erase re sn [] Hb) as H.
    destruct (matchAt re sn []) as [m1|], (matchAt (eraseGroups re) sn []) as [m2|];
      cbn [option_map] in H; try discriminate H; [|reflexivity].
    assert (E : span m1 = span m2) by congruence.
    cbn [map]. now rewrite E.
  - destruct skip; [|apply IH].
    pose proof (matchAt_erase re sn (c :: rs) Hb) as H.
    destruct (matchAt re sn (c :: rs)) as [m1|],
             (matchAt (eraseGroups re) sn (c :: rs)) as [m2|]; cbn [option_map] in H;
      try discriminate H; [|apply IH].
    assert (E : span m1 = span m2) by congruence.
    assert (Et : text m1 = text m2) by (unfold span in E; congruence).
    cbn [map]. rewrite E, Et. f_equal. apply IH.
Qed.

End SpanFacts.

Section GuardedPrefixed.
Variable c : char.
Variable body : regex.

(** The body never starts with [c], and a match never ends with it. *)
Hypothesis body_not_c :
  forall sn rs, run body (MState sn (c :: rs) []) Some = None.
Hypothesis last_not_c :
  forall sn rs m, matchAt (prefixed c body) sn rs = Some m ->
    exists t y, text m = t ++ [y] /\ y <> c.

Lemma run_prefixed sn rs :
  run (prefixed c body) (MState sn rs []) Some
  = match rs with
    | x :: rs' =>
        if N.eqb c x
        then orElse (run body (MState (x :: sn) rs' []) Some)
                    (fun _ => run body (MState sn rs []) Some)
        else run body (MState sn rs []) Some
    | [] => run body (MState sn [] []) Some
    end.
Proof.
  unfold prefixed, optChar. cbn [run seen rest caps].
  destruct rs as [|x rs']; [reflexivity|]. cbn [repeatClass canTake].
  destruct (N.eqb c x); [|reflexivity]. cbn [andb option_map pred].
  destruct rs' as [|y rs'']; cbn [repeatClass canTake]; [reflexivity|].
  now rewrite andb_false_r.
Qed.

Lemma run_guarded sn rs :
  run (guarded c body) (MState sn rs []) Some
  = orElse (if negb (startsWith c sn) then run body (MState sn rs []) Some else None)
      (fun _ => match rs with
                | x :: rs' => if N.eqb x c then run body (MState (x :: sn) rs' []) Some
                              else None
                | [] => None
                end).
Proof.
  unfold guarded. cbn [run seen rest caps]. unfold notPrecededBy, step. cbn [seen caps].
  destruct sn; reflexivity.
Qed.

Lemma run_agree sn rs :
  (startsWith c sn = true -> run body (MState sn rs []) Some = None) ->
  run (guarded c body) (MState sn rs []) Some
  = run (prefixed c body) (MState sn rs []) Some.
Proof.
  intros Hinv. rewrite run_guarded, run_prefixed.
  assert (Hfirst : (if negb (startsWith c sn) then run body (MState sn rs []) Some else None)
                   = run body (MState sn rs []) Some).
  { destruct (startsWith c sn); [now rewrite Hinv|reflexivity]. }
  rewrite Hfirst. destruct rs as [|x rs'].
  - match goal with |- orElse ?a _ = ?a => destruct a; reflexivity end.
  - rewrite (N.eqb_sym c x). destruct (N.eqb x c) eqn:E.
    + apply N.eqb_eq in E. subst x. rewrite body_not_c. simpl.
      match goal with |- ?a = orElse ?a _ => destruct a; reflexivity end.
    + match goal with |- orElse ?a _ = ?a => destruct a; reflexivity end.
Qed.

Lemma matchAt_agree sn rs :
  (startsWith c sn = true -> run body (MState sn rs []) Some = None) ->
  matchAt (guarded c body) sn rs = matchAt (prefixed c body) sn rs.
Proof. intros H. unfold matchAt. now rewrite run_agree. Qed.

Lemma guarded_none_next sn rs :
  matchAt (guarded c body) sn (c :: rs) = None ->
  run body (MState (c :: sn) rs []) Some = None.
Proof.
  unfold matchAt. rewrite run_guarded, N.eqb_refl, body_not_c.
  destruct (startsWith c sn); simpl; destruct (run body _ Some); easy.
Qed.

Lemma scanReady_after sn x rs m :
  matchAt (prefixed c body) sn (x :: rs) = Some m ->
  scanReady c body (pred (length (text m))) (x :: sn) rs.
Proof.
  intros H. destruct (last_not_c _ _ _ H) as (t & y & Et & Hy).
  apply matchAt_prefix in H as [post Hp]. rewrite Et in Hp.
  rewrite Et, length_app. cbn [length]. replace (pred (length t + 1)) with (length t) by lia.
  destruct t as [|t0 t]; cbn [length scanReady].
  - simpl in Hp. injection Hp as -> _. cbn [startsWith]. intros E.
    apply N.eqb_eq in E. contradiction.
  - simpl in Hp. injection Hp as _ ->. rewrite <- app_assoc.
    rewrite nth_error_app2 by lia. rewrite Nat.sub_diag. simpl. congruence.
Qed.

Lemma scanAll_agree rs :
  forall skip sn,
    scanReady c body skip sn rs ->
    scanAll (guarded c body) skip sn rs = scanAll (prefixed c body) skip sn rs.
Proof.
  induction rs as [|x rs IH]; intros skip sn Hinv; cbn [scanAll].
  - destruct skip; [|reflexivity]. now rewrite matchAt_agree.
  - destruct skip as [|n].
    + rewrite matchAt_agree by exact Hinv.
      destruct (matchAt (prefixed c body) sn (x :: rs)) as [m|] eqn:E.
      * f_equal. apply IH. now apply scanReady_after.
      * apply IH. cbn [scanReady startsWith]. intros Ex. apply N.eqb_eq in Ex. subst x.
        apply guarded_none_next. now rewrite matchAt_agree.
    + apply IH. destruct n as [|n]; cbn [scanReady] in *.
      * cbn [startsWith]. intros Ex. apply N.eqb_eq in Ex. subst x. now elim Hinv.
      * exact Hinv.
Qed.

Lemma matchAll_agree s : matchAll (guarded c body) s = matchAll (prefixed c body) s.
Proof. apply scanAll_agree. cbn. discriminate. Qed.

End GuardedPrefixed.

Section SharedSpans.

Lemma inline_spans markdown :
  map span (matchAll inlineLinkRe markdown) = map span (matchAll inlineLinkRE markdown).
Proof.
  unfold matchAll. rewrite (scanAll_erase inlineLinkRe markdown eq_refl).
  change (eraseGroups inlineLinkRe) with (guarded (ch "!") inlineLinkBody).
  change inlineLinkRE with (prefixed (ch "!") inlineLinkBody).
  f_equal. apply matchAll_agree.
  - reflexivity.
  - intros sn rs m H.
    destruct (inlineLinkRE_shape sn rs m H) as (bang & inner & E & _).
    exists (bang ++ ch "[" :: inner), (ch ")"). split; [|discriminate].
    rewrite E. now rewrite <- app_assoc.
Qed.

Lemma ref_spans markdown :
  map span (matchAll refLinkRe markdown) = map span (matchAll refLinkRE markdown).
Proof.
  unfold matchAll. rewrite (scanAll_erase refLinkRe markdown eq_refl).
  change (eraseGroups refLinkRe) with (guarded (ch "!") refLinkBody).
  change refLinkRE with (prefixed (ch "!") refLinkBody).
  f_equal. apply matchAll_agree.
  - reflexivity.
  - intros sn rs m H.
    destruct (refLinkRE_shape sn rs m H) as (bang & inner & E & _).
    exists (bang ++ ch "[" :: inner), (ch "]"). split; [|discriminate].
    rewrite E. now rewrite <- app_assoc.
Qed.

(** In a match of the extractor's inline pattern the group [img] took part
    exactly when the text starts with ['!']. *)
Lemma inlineLinkRe_image sn rs m :
  matchAt inlineLinkRe sn rs = Some m ->
  (group 3 m = None /\ startsWith (ch "!") (text m) = false)
  \/ (is_Some (group 3 m) /\ startsWith (ch "!") (text m) = true).
Proof.
  intros H. apply matchAt_sound in H as (st' & H & _ & Hg).
  unfold group. rewrite Hg. clear Hg.
  unfold inlineLinkRe in H. unfold_matches H. break_matches; subst; chase_captures.
  - left. match goal with H : text m = _ |- _ => rewrite H end. split; reflexivity.
  - right. match goal with H : text m = _ |- _ => rewrite H end.
    split; [cbn; eauto|reflexivity].
Qed.

Lemma refLinkRe_image sn rs m :
  matchAt refLinkRe sn rs = Some m ->
  (group 3 m = None /\ startsWith (ch "!") (text m) = false)
  \/ (is_Some (group 3 m) /\ startsWith (ch "!") (text m) = true).
Proof.
  intros H. apply matchAt_sound in H as (st' & H & _ & Hg).
  unfold group. rewrite Hg. clear Hg.
  unfold refLinkRe in H. unfold_matches H. break_matches; subst; chase_captures.
  - left. match goal with H : text m = _ |- _ => rewrite H end. split; reflexivity.
  - right. match goal with H : text m = _ |- _ => rewrite H end.
    split; [cbn; eauto|reflexivity].
Qed.

End SharedSpans.

(** ** Further facts: building the text, overlap, markers *)

Section WeaveFacts.

Local Arguments marker : simpl never.

Lemma build_weave markdown hits :
  forall result cursor i,
    (let '(r, c, _) := fold_left (buildStep markdown) hits (result, cursor, i) in
     r ++ sliceFrom markdown c)
    = result ++ weave markdown cursor i hits.
Proof.
  induction hits as [|h hits IH]; intros result cursor i; cbn [fold_left weave buildStep].
  - reflexivity.
  - rewrite IH. now rewrite <- !app_assoc.
Qed.

Lemma buildReplaced_weave markdown hits :
  buildReplaced markdown hits = weave markdown 0 0 hits.
Proof. unfold buildReplaced. apply (build_weave markdown hits [] 0 0). Qed.

Lemma skipn_split s a b c :
  a <= b -> b <= c -> skipn a s = slice s a b ++ slice s b c ++ skipn c s.
Proof.
  intros Hab Hbc. unfold slice.
  rewrite <- (take_drop (b - a) (skipn a s)) at 1. f_equal.
  rewrite drop_drop. replace (a + (b - a)) with b by lia.
  rewrite <- (take_drop (c - b) (skipn b s)) at 1. f_equal.
  rewrite drop_drop. f_equal. lia.
Qed.

(** Over hits that follow one another the document and the built text are
    the same gaps around, in one, the hits and, in the other, the markers. *)
Lemma weave_interleave markdown hits :
  forall cursor i,
    noOverlapFrom cursor hits ->
    (forall h, In h hits -> start h <= end_ h) ->
    exists gaps,
      length gaps = S (length hits)
      /\ skipn cursor markdown = interleave gaps (map (spanText markdown) hits)
      /\ weave markdown cursor i hits = interleave gaps (markersOf i (length hits)).
Proof.
  induction hits as [|h hits IH]; intros cursor i Hno Hb.
  - exists [skipn cursor markdown]. repeat split.
  - destruct Hno as [Hc Hno].
    destruct (IH (end_ h) (S i) Hno (fun h0 H0 => Hb h0 (or_intror H0)))
      as (gaps & Hl & Hd & Hw).
    exists (slice markdown cursor (start h) :: gaps). split; [simpl; lia|]. split.
    + cbn [map interleave]. rewrite <- Hd. unfold spanText.
      apply skipn_split; [assumption|]. apply Hb. now left.
    + cbn [weave length]. unfold markersOf in *. cbn [seq map interleave].
      now rewrite Hw.
Qed.

Lemma intersects_sym a b : intersects a b = intersects b a.
Proof. unfold intersects. now rewrite orb_comm. Qed.

Lemma intersects_covers a b :
  start a < end_ a -> start b < end_ b ->
  (intersects a b = true <-> exists p, covers a p /\ covers b p).
Proof.
  intros Ha Hb. unfold intersects, covers.
  rewrite negb_true_iff, orb_false_iff, !Nat.leb_gt. split.
  - intros [H1 H2]. exists (Nat.max (start a) (start b)). lia.
  - intros (p & H1 & H2). lia.
Qed.

Lemma digitsOfUint_inj d : forall d', digitsOfUint d = digitsOfUint d' -> d = d'.
Proof.
  induction d; intros [] H; cbn [digitsOfUint] in H;
    try reflexivity; try discriminate H;
    pose proof (f_equal (hd 0%N) H) as Hc; pose proof (f_equal (@tl _) H) as Ht;
    cbn [hd tl] in Hc, Ht; try (vm_compute in Hc; discriminate Hc);
    f_equal; auto.
Qed.

Lemma marker_inj i j : marker i = marker j -> i = j.
Proof.
  unfold marker, numberToString. intros H. injection H as H.
  apply app_inv_tail in H. apply digitsOfUint_inj in H.
  apply Unsigned.to_uint_inj in H. lia.
Qed.

Lemma marker_shape i :
  exists digits, marker i = ch "[" :: digits ++ [ch "]"]
                 /\ digits <> [] /\ Forall (fun c => isAsciiDigit c = true) digits.
Proof.
  exists (numberToString (i + 1)). split; [reflexivity|]. split.
  - unfold numberToString. intros E.
    assert (H : digitsOfUint (Nat.to_uint (i + 1)) = digitsOfUint Decimal.Nil) by exact E.
    apply digitsOfUint_inj in H.
    apply (f_equal Nat.of_uint) in H. rewrite Unsigned.of_to in H.
    change (Nat.of_uint Decimal.Nil) with 0 in H. lia.
  - apply digitsOfUint_digits.
Qed.

End WeaveFacts.

(** ** Further facts: definition lines, inline targets, order of hits *)

Section DefinitionFacts.

Lemma noneOf_count c l s :
  In c l -> Forall (fun x => noneOf l x = true) s -> countChar c s = 0.
Proof.
  intros Hc H. induction H as [|x s Hx _ IH]; [reflexivity|].
  rewrite countChar_cons, IH.
  destruct (N.eqb c x) eqn:E; [|reflexivity].
  apply N.eqb_eq in E. subst x. exfalso.
  unfold noneOf in Hx. apply negb_true_iff in Hx.
  assert (Ht : oneOf l c = true).
  { unfold oneOf. apply existsb_exists. exists c. split; [assumption|apply N.eqb_refl]. }
  congruence.
Qed.

(** A match of the definition pattern: up to three white-space characters,
    the bracketed id, a colon, and a URL with no white space and no [>]. *)
Lemma refDefRe_shape sn rs m :
  matchAt refDefRe sn rs = Some m ->
  exists lead g1 g2 rest,
    group 1 m = Some g1 /\ group 2 m = Some g2
    /\ text m = lead ++ ch "[" :: g1 ++ ch "]" :: ch ":" :: rest
    /\ length lead <= 3 /\ noWhiteSpace g2 /\ g2 <> []
    /\ countChar (ch ">") g2 = 0 /\ countChar (ch "]") g1 = 0 /\ g1 <> [].
Proof.
  intros H. apply matchAt_sound in H as (st' & H & _ & Hg).
  unfold group. rewrite Hg. clear Hg.
  unfold refDefRe in H. unfold_matches H. break_matches; subst; chase_captures.
  all: match goal with
       | H : text ?mm = [] ++ ?lead ++ [ch "["] ++ ?g1 ++ [ch "]"] ++ [ch ":"]
                         ++ ?ws ++ ?lt ++ ?g2 ++ ?rest' |- _ =>
           exists lead, g1, g2, (ws ++ lt ++ g2 ++ rest'); rewrite H
       end.
  all: cbn [getCapture Nat.eqb].
  all: repeat split; try assumption; try reflexivity; cbn [withinMax] in *; try lia.
  all: try match goal with
       | Hg2 : Forall (fun c => negb (isWhiteSpace c || N.eqb c (ch ">")) = true) ?g
         |- noWhiteSpace ?g =>
           eapply List.Forall_impl; [|exact Hg2]; cbv beta; intros c Hc;
           apply negb_true_iff, orb_false_iff in Hc; tauto
       | Hg2 : Forall (fun c => negb (isWhiteSpace c || N.eqb c (ch ">")) = true) ?g
         |- countChar _ ?g = 0 =>
           clear - Hg2; induction Hg2 as [|x s Hx _ IH]; [reflexivity|];
           rewrite countChar_cons, IH;
           apply negb_true_iff, orb_false_iff in Hx; destruct Hx as [_ Hx];
           rewrite N.eqb_sym, Hx; reflexivity
       | Hg1 : Forall (fun c => noneOf ?l c = true) ?g |- countChar _ ?g = 0 =>
           apply (noneOf_count _ l); [now left|exact Hg1]
       | Hl : 1 <= length ?g |- ?g <> [] =>
           intros ->; simpl in Hl; lia
       end.
Qed.

Lemma defUrl_clean markdown d :
  In d (matchAll refDefRe markdown) ->
  defUrl d <> [] /\ noWhiteSpace (defUrl d) /\ countChar (ch ">") (defUrl d) = 0.
Proof.
  intros H. apply matchAll_In in H as (pre & post & _ & _ & H).
  apply refDefRe_shape in H
    as (lead & g1 & g2 & rest & _ & E2 & _ & _ & Hws & Hne & Hgt & _).
  unfold defUrl. rewrite E2. change (default [] (Some g2)) with g2. rewrite (trim_noWhiteSpace _ Hws). auto.
Qed.

Lemma indexOf_first c u rest :
  countChar c u = 0 -> indexOf c (u ++ c :: rest) = Some (length u).
Proof.
  induction u as [|x u IH]; intros H; cbn [app indexOf length].
  - now rewrite N.eqb_refl.
  - rewrite countChar_cons in H. destruct (N.eqb x c) eqn:E.
    + rewrite N.eqb_sym, E in H. lia.
    + rewrite IH by (destruct (N.eqb c x); lia). reflexivity.
Qed.

Lemma indexOf_none c s : countChar c s = 0 -> indexOf c s = None.
Proof.
  induction s as [|x s IH]; intros H; cbn [indexOf]; [reflexivity|].
  rewrite countChar_cons in H. destruct (N.eqb x c) eqn:E.
  - rewrite N.eqb_sym, E in H. lia.
  - rewrite IH by (destruct (N.eqb c x); lia). reflexivity.
Qed.

(** The bracketed form of a target: the URL is what is between the leading
    [<] and the first [>]. *)
Lemma inlineUrl_angle u rest :
  countChar (ch ">") u = 0 ->
  inlineUrl (ch "<" :: u ++ ch ">" :: rest) = trim u.
Proof.
  intros H. unfold inlineUrl. cbn [startsWith]. rewrite N.eqb_refl.
  change (ch "<" :: u ++ ch ">" :: rest) with ([ch "<"] ++ u ++ ch ">" :: rest).
  rewrite app_assoc, indexOf_first.
  2:{ rewrite countChar_app, H. reflexivity. }
  rewrite length_app. cbn [length Nat.add Nat.ltb Nat.leb].
  f_equal. unfold slice. rewrite <- app_assoc.
  change (skipn 1 ([ch "<"] ++ u ++ ch ">" :: rest)) with (u ++ ch ">" :: rest).
  replace (S (length u) - 1) with (length u) by lia.
  apply take_app_length.
Qed.

(** A target that opens with [<] and has no [>]: the brackets are removed. *)
Lemma inlineUrl_angle_open u :
  countChar (ch ">") u = 0 ->
  inlineUrl (ch "<" :: u) = trim (removeAngles u).
Proof.
  intros H. unfold inlineUrl. cbn [startsWith]. rewrite N.eqb_refl.
  rewrite indexOf_none.
  2:{ rewrite countChar_cons, H. reflexivity. }
  reflexivity.
Qed.

(** Any other target: the URL is the text before the first white space. *)
Lemma inlineUrl_plain inside :
  startsWith (ch "<") inside = false ->
  inlineUrl inside = splitWsFirst inside.
Proof.
  intros H. unfold inlineUrl. rewrite H.
  apply trim_noWhiteSpace, splitWsFirst_spec.
Qed.

Lemma splitWsFirst_stops s post :
  s = splitWsFirst s ++ post ->
  post = [] \/ exists c post', post = c :: post' /\ isWhiteSpace c = true.
Proof.
  revert post. induction s as [|x s IH]; intros post; cbn [splitWsFirst].
  - cbn [app]. intros <-. now left.
  - destruct (isWhiteSpace x) eqn:E; cbn [app].
    + intros <-. right. eauto.
    + intros H. injection H as H. auto.
Qed.

End DefinitionFacts.

Section OrderFacts.

Lemma sortedFrom_weaken l : forall lo lo', lo' <= lo -> sortedFrom lo l -> sortedFrom lo' l.
Proof. destruct l; simpl; [auto|]. intros lo lo' Hle [H1 H2]. split; [lia|assumption]. Qed.

Lemma sortedFrom_lookup l :
  forall lo i a, sortedFrom lo l -> nth_error l i = Some a -> lo <= start a.
Proof.
  induction l as [|h l IH]; intros lo [|i] a Hs Hi; simpl in *; try discriminate.
  - injection Hi as <-. tauto.
  - destruct Hs as [H1 H2]. pose proof (IH _ _ _ H2 Hi). lia.
Qed.

(** In a sorted list a later hit does not start before an earlier one. *)
Lemma sortedFrom_ordered l :
  forall lo i j a b,
    sortedFrom lo l -> i < j ->
    nth_error l i = Some a -> nth_error l j = Some b -> start a <= start b.
Proof.
  induction l as [|h l IH]; intros lo i j a b Hs Hij Hi Hj.
  - destruct i; discriminate.
  - destruct Hs as [H1 H2]. destruct j as [|j]; [lia|]. destruct i as [|i]; simpl in *.
    + injection Hi as <-. eapply sortedFrom_lookup; eassumption.
    + eapply (IH _ i j); try eassumption. lia.
Qed.

End OrderFacts.

(** ** The properties of the specification *)

(** C1, as stated, fails: in the document [[a][b]] the reference-style
    pattern matches a link whose id resolves to nothing, and the extractor
    returns no occurrence at all; so it is not true that every unresolved
    reference-style link has an occurrence with an empty URL in the result. *)
Lemma unresolved_reference_emitted_counterexample :
  (exists m, matchAll refLinkRe (str "[a][b]") = [m]
             /\ text m = str "[a][b]" /\ group 3 m = None
             /\ harvested asciiLower (str "[a][b]") !! refLinkId asciiLower m = None)
  /\ extractMarkdownLinks asciiLower (str "[a][b]") = Ok []
  /\ ~ (forall markdown m,
          In m (matchAll refLinkRe markdown) -> group 3 m = None ->
          harvested asciiLower markdown !! refLinkId asciiLower m = None ->
          exists results x,
            extractMarkdownLinks asciiLower markdown = Ok results
            /\ In x results /\ url x = []).
Proof.
  split; [|split].
  - eexists. repeat split; vm_compute; reflexivity.
  - vm_compute. reflexivity.
  - intros H.
    destruct (H (str "[a][b]") (RMatch 0 (str "[a][b]") [(2, str "b"); (1, str "a")]))
      as (results & x & He & Hin & _).
    + vm_compute. now left.
    + reflexivity.
    + vm_compute. reflexivity.
    + vm_compute in He. injection He as <-. destruct Hin.
Qed.

(** C1, amended: a reference-style link whose id does not resolve against
    the harvested definitions contributes no occurrence; the helper [push]
    discards its empty URL as it does for an inline link.  The result is
    the inline and autolink occurrences followed by what the matches of the
    reference-style pattern contribute; an unresolved match contributes
    nothing, and neither does a match of the inline pattern whose URL is
    empty. *)
Theorem unresolved_reference_dropped (toLowerCase : jsstring -> jsstring) (markdown : jsstring) :
  extractMarkdownLinks toLowerCase markdown
  = Ok (map snd (inlineOccurrences markdown ++ autolinkOccurrences markdown)
        ++ flat_map (refOccurrence toLowerCase (harvested toLowerCase markdown))
             (matchAll refLinkRe markdown))
  /\ (forall m, In m (matchAll refLinkRe markdown) ->
        harvested toLowerCase markdown !! refLinkId toLowerCase m = None ->
        refOccurrence toLowerCase (harvested toLowerCase markdown) m = [])
  /\ (forall m, In m (matchAll inlineLinkRe markdown) ->
        inlineUrl (trim (default [] (group 2 m))) = [] ->
        inlineOccurrence m = []).
Proof.
  split; [|split].
  - rewrite extract_reading. unfold refOccurrences.
    now rewrite app_assoc, map_app, located_links.
  - intros m _ H. unfold refOccurrence. destruct (group 3 m); [reflexivity|].
    now rewrite H.
  - intros m _ H. unfold inlineOccurrence. destruct (group 3 m); [reflexivity|].
    now rewrite H.
Qed.

(** The same, at the document [[a][b]] and its one match. *)
Lemma unresolved_reference_dropped_witness :
  In (RMatch 0 (str "[a][b]") [(2, str "b"); (1, str "a")]) (matchAll refLinkRe (str "[a][b]"))
  /\ harvested asciiLower (str "[a][b]")
       !! refLinkId asciiLower (RMatch 0 (str "[a][b]") [(2, str "b"); (1, str "a")]) = None
  /\ refOccurrence asciiLower (harvested asciiLower (str "[a][b]"))
       (RMatch 0 (str "[a][b]") [(2, str "b"); (1, str "a")]) = [].
Proof.
  assert (H1 : In (RMatch 0 (str "[a][b]") [(2, str "b"); (1, str "a")])
                 (matchAll refLinkRe (str "[a][b]")))
    by (vm_compute; now left).
  assert (H2 : harvested asciiLower (str "[a][b]")
               !! refLinkId asciiLower (RMatch 0 (str "[a][b]") [(2, str "b"); (1, str "a")])
               = None)
    by (vm_compute; reflexivity).
  split; [exact H1|]. split; [exact H2|].
  exact (proj1 (proj2 (unresolved_reference_dropped asciiLower (str "[a][b]"))) _ H1 H2).
Defined.

(** C2, as stated, fails: in [[a](<http://x>)] the inline link and the
    autolink inside it are both kept; the output [[1][2])] has 7 code units,
    not 15 - (15 + 10) + (3 + 3). *)
Lemma rewritten_length_counterexample :
  replaceMarkdownLinksWithOrder (str "[a](<http://x>)") = str "[1][2])"
  /\ keptHits (str "[a](<http://x>)")
     = [ {| start := 0; end_ := 15 |}; {| start := 4; end_ := 14 |} ]
  /\ intersects {| start := 0; end_ := 15 |} {| start := 4; end_ := 14 |} = true
  /\ (Z.of_nat (length (replaceMarkdownLinksWithOrder (str "[a](<http://x>)")))
      <> Z.of_nat (length (str "[a](<http://x>)"))
         - Z.of_nat (totalSpans (keptHits (str "[a](<http://x>)")))
         + Z.of_nat (totalMarkers (keptHits (str "[a](<http://x>)"))))%Z
  /\ ~ (forall markdown,
          (Z.of_nat (length (replaceMarkdownLinksWithOrder markdown))
           = Z.of_nat (length markdown) - Z.of_nat (totalSpans (keptHits markdown))
             + Z.of_nat (totalMarkers (keptHits markdown)))%Z).
Proof.
  split; [|split; [|split; [|split]]]; try (vm_compute; congruence).
  intros H. specialize (H (str "[a](<http://x>)")). vm_compute in H. congruence.
Qed.

(** C2, amended: for every document whose kept hits do not overlap one
    another (no two of them intersect, by the overlap test of the source),
    the length of the output is the length of the input, minus the lengths
    of the kept hit spans, plus the lengths of the markers put in their
    place. *)
Theorem rewritten_length (markdown : jsstring) :
  PairwiseDisjoint (keptHits markdown) ->
  totalSpans (keptHits markdown) <= length markdown
  /\ length (replaceMarkdownLinksWithOrder markdown)
     = length markdown - totalSpans (keptHits markdown) + totalMarkers (keptHits markdown).
Proof.
  intros Hd. pose proof (keptHits_noOverlap _ Hd) as Hno.
  pose proof (totalSpans_bound (length markdown) _ 0 Hno (keptHits_bounds markdown)
                ltac:(lia)) as Hb.
  pose proof (buildReplaced_length markdown _ Hno (keptHits_bounds markdown)) as Hl.
  unfold replaceMarkdownLinksWithOrder. lia.
Qed.

(** The same, at a document with an inline link and an autolink. *)
Lemma rewritten_length_witness :
  PairwiseDisjoint (keptHits (str "See [Docs](https://a.test/x) and <https://a.test/y>."))
  /\ totalSpans (keptHits (str "See [Docs](https://a.test/x) and <https://a.test/y>.")) <= 52
  /\ length (replaceMarkdownLinksWithOrder
               (str "See [Docs](https://a.test/x) and <https://a.test/y>."))
     = 52 - totalSpans (keptHits (str "See [Docs](https://a.test/x) and <https://a.test/y>."))
       + totalMarkers (keptHits (str "See [Docs](https://a.test/x) and <https://a.test/y>.")).
Proof.
  assert (H : PairwiseDisjoint
                (keptHits (str "See [Docs](https://a.test/x) and <https://a.test/y>.")))
    by (vm_compute; repeat constructor).
  split; [exact H|].
  exact (rewritten_length _ H).
Defined.







(** C5: the result of the extractor is the inline occurrences, then the
    autolink occurrences, then the reference-style occurrences, each group
    in the order of the offsets in the document; the whole is not sorted by
    offset, as the document [<http://a> [x](y)] shows. *)
Theorem extractor_groups_by_pass :
  (forall (toLowerCase : jsstring -> jsstring) (markdown : jsstring),
      extractMarkdownLinks toLowerCase markdown
      = Ok (map snd (inlineOccurrences markdown ++ autolinkOccurrences markdown
                     ++ refOccurrences toLowerCase markdown))
      /\ increasingFrom 0 (map fst (inlineOccurrences markdown))
      /\ increasingFrom 0 (map fst (autolinkOccurrences markdown))
      /\ increasingFrom 0 (map fst (refOccurrences toLowerCase markdown)))
  /\ (exists markdown,
        ~ increasingFrom 0
            (map fst (inlineOccurrences markdown ++ autolinkOccurrences markdown
                      ++ refOccurrences asciiLower markdown))).
Proof.
  split.
  - intros toLowerCase markdown. split; [apply extract_reading|].
    repeat split; apply located_increasing;
      try apply (scanAll_chained _ _ 0 []); intros m.
    + unfold inlineOccurrence. destruct (group 3 m); [simpl; lia|apply push_at_most_one].
    + apply push_at_most_one.
    + unfold refOccurrence. destruct (group 3 m); [simpl; lia|apply push_at_most_one].
  - exists (str "<http://a> [x](y)"). vm_compute. lia.
Qed.



(** C7, as stated, fails: in the image [![alt](<http://x>)] the autolink
    passes, which have no image check, find the target: the extractor
    returns one pair and the rewriter puts a marker inside the image. *)
Lemma image_with_autolink_counterexample :
  imageSyntax (str "alt") (str "<http://x>") = str "![alt](<http://x>)"
  /\ extractMarkdownLinks asciiLower (str "![alt](<http://x>)")
     = Ok [ {| title := []; url := str "http://x" |} ]
  /\ replaceMarkdownLinksWithOrder (str "![alt](<http://x>)") = str "![alt]([1])"
  /\ ~ (forall alt url,
          extractMarkdownLinks asciiLower (imageSyntax alt url) = Ok []
          /\ replaceMarkdownLinksWithOrder (imageSyntax alt url) = imageSyntax alt url).
Proof.
  split; [|split; [|split]]; try (vm_compute; reflexivity).
  intros H. destruct (H (str "alt") (str "<http://x>")) as [H1 _].
  vm_compute in H1. congruence.
Qed.

(** C7, amended: the inline and reference passes of both functions skip
    every match that begins with ['!'] (in the extractor, every match of
    the image alternative, whose group is set).  For a document consisting
    of an image [![alt](url)] whose [alt] and [url] contain no ['['] and no
    ['<'], the extractor returns no occurrence and the rewriter returns the
    document as it is. *)
Theorem image_left_alone :
  (forall (toLowerCase : jsstring -> jsstring) (alt url : jsstring),
      countChar (ch "[") alt = 0 -> countChar (ch "[") url = 0 ->
      countChar (ch "<") alt = 0 -> countChar (ch "<") url = 0 ->
      extractMarkdownLinks toLowerCase (imageSyntax alt url) = Ok []
      /\ replaceMarkdownLinksWithOrder (imageSyntax alt url) = imageSyntax alt url)
  /\ (forall (toLowerCase : jsstring -> jsstring) references m results,
        is_Some (group 3 m) ->
        inlineBody m results = Ok results
        /\ refBody toLowerCase references m results = Ok results)
  /\ (forall excluded hits m,
        startsWith (ch "!") (text m) = true -> linkStep excluded hits m = hits).
Proof.
  split; [|split].
  - intros toLowerCase alt url H1 H2 H3 H4. split.
    + now apply image_no_occurrence.
    + unfold replaceMarkdownLinksWithOrder. rewrite image_no_hits by assumption.
      apply buildReplaced_nil.
  - intros toLowerCase references m results [g Hg].
    unfold inlineBody, refBody. now rewrite Hg.
  - intros excluded hits m H. unfold linkStep. now rewrite H.
Qed.

(** The same, at the image [![alt](https://a.test/img.png)]. *)
Lemma image_left_alone_witness :
  countChar (ch "[") (str "alt") = 0
  /\ countChar (ch "[") (str "https://a.test/img.png") = 0
  /\ countChar (ch "<") (str "alt") = 0
  /\ countChar (ch "<") (str "https://a.test/img.png") = 0
  /\ extractMarkdownLinks asciiLower (str "![alt](https://a.test/img.png)") = Ok []
  /\ replaceMarkdownLinksWithOrder (str "![alt](https://a.test/img.png)")
     = str "![alt](https://a.test/img.png)".
Proof.
  do 4 (split; [reflexivity|]).
  exact (proj1 image_left_alone asciiLower (str "alt") (str "https://a.test/img.png")
           eq_refl eq_refl eq_refl eq_refl).
Defined.

(** C8: both functions are total.  The extractor returns on every document
    (no [TypeError], no [exec] loop stuck on an empty match); it returns the
    empty list on the empty document, on every document in which none of the
    three link patterns matches, and so on every document that has no closing
    square bracket and no closing angle bracket.  The rewriter has no failing
    operation and is a function; on a document with no kept hit it returns
    the document unchanged. *)
Theorem engine_total :
  (forall (toLowerCase : jsstring -> jsstring) (markdown : jsstring),
      exists results, extractMarkdownLinks toLowerCase markdown = Ok results)
  /\ (forall toLowerCase : jsstring -> jsstring,
        extractMarkdownLinks toLowerCase [] = Ok [])
  /\ (forall (toLowerCase : jsstring -> jsstring) (markdown : jsstring),
        matchAll inlineLinkRe markdown = [] ->
        matchAll autolinkRe markdown = [] ->
        matchAll refLinkRe markdown = [] ->
        extractMarkdownLinks toLowerCase markdown = Ok [])
  /\ (forall (toLowerCase : jsstring -> jsstring) (markdown : jsstring),
        countChar (ch "]") markdown = 0 -> countChar (ch ">") markdown = 0 ->
        extractMarkdownLinks toLowerCase markdown = Ok [])
  /\ (forall markdown : jsstring,
        keptHits markdown = [] -> replaceMarkdownLinksWithOrder markdown = markdown).
Proof.
  split; [|split; [|split; [|split]]].
  - intros. eexists. apply extract_reading.
  - intros. apply extract_no_matches; reflexivity.
  - intros. now apply extract_no_matches.
  - intros toLowerCase markdown H1 H2.
    apply extract_no_matches; eapply matchAll_needs_char.
    + rewrite H1. vm_compute. lia.
    + rewrite H2. vm_compute. lia.
    + rewrite H1. vm_compute. lia.
  - intros markdown H. unfold replaceMarkdownLinksWithOrder. rewrite H.
    apply buildReplaced_nil.
Qed.

(** The same, at a document with an unclosed bracket. *)
Lemma engine_total_witness :
  countChar (ch "]") (str "[unclosed (https://a.test") = 0
  /\ countChar (ch ">") (str "[unclosed (https://a.test") = 0
  /\ extractMarkdownLinks asciiLower (str "[unclosed (https://a.test") = Ok []
  /\ keptHits (str "[unclosed (https://a.test") = []
  /\ replaceMarkdownLinksWithOrder (str "[unclosed (https://a.test")
     = str "[unclosed (https://a.test".
Proof.
  destruct engine_total as (_ & _ & _ & Hextract & Hreplace).
  assert (H1 : countChar (ch "]") (str "[unclosed (https://a.test") = 0) by reflexivity.
  assert (H2 : countChar (ch ">") (str "[unclosed (https://a.test") = 0) by reflexivity.
  assert (H3 : keptHits (str "[unclosed (https://a.test") = []) by reflexivity.
  split; [exact H1|]. split; [exact H2|].
  split; [exact (Hextract asciiLower _ H1 H2)|].
  split; [exact H3|]. exact (Hreplace _ H3).
Defined.

(** C9: every pair the extractor returns has a non-empty URL: the extractor
    returns on every document, and no element of its result has the empty
    string as [url], whatever pass it comes from. *)
Theorem extracted_urls_nonempty (toLowerCase : jsstring -> jsstring) (markdown : jsstring) :
  exists results,
    extractMarkdownLinks toLowerCase markdown = Ok results
    /\ Forall (fun x => url x <> []) results.
Proof.
  eexists. split; [apply extract_reading|].
  apply List.Forall_forall. intros x Hx.
  unfold inlineOccurrences, autolinkOccurrences, refOccurrences in Hx.
  rewrite !map_app, !located_links in Hx.
  assert (Hf : forall (f : rmatch -> list MarkdownLink) ms,
             (forall m y, In y (f m) -> url y <> []) ->
             In x (flat_map f ms) -> url x <> []).
  { intros f ms Hf H. apply in_flat_map in H as (m & _ & H). eauto. }
  rewrite !in_app_iff in Hx. destruct Hx as [Hx|[Hx|Hx]]; revert Hx; apply Hf; intros m y.
  - unfold inlineOccurrence. destruct (group 3 m); [intros []|apply push_url].
  - apply push_url.
  - unfold refOccurrence. destruct (group 3 m); [intros []|apply push_url].
Qed.



(** ** Further facts: which hits are kept, ties of the sort, titles *)

Section KeptHitsFacts.

Lemma linkStep_fold excluded ms :
  forall acc h, In h (fold_left (linkStep excluded) ms acc) <->
    In h acc \/
    exists m, In m ms /\ h = rangeOf m /\ startsWith (ch "!") (text m) = false
              /\ isInsideExcluded (start h) (end_ h) excluded = false.
Proof.
  intros acc h. split; [apply linkStep_In|]. revert acc.
  induction ms as [|m ms IH]; intros acc [H|(m' & Hm' & Hh & Hb & Hx)]; cbn [fold_left].
  - assumption.
  - destruct Hm'.
  - apply IH. left. unfold linkStep, pushUnlessExcluded.
    destruct (startsWith _ _); [assumption|].
    destruct (negb _); [|assumption]. apply in_or_app. now left.
  - destruct Hm' as [->|Hm'].
    + apply IH. left. unfold linkStep, pushUnlessExcluded. rewrite Hb.
      subst h. cbn [start end_ rangeOf] in Hx. cbn [start end_ rangeOf]. rewrite Hx.
      apply in_or_app. right. now left.
    + apply IH. right. eauto 6.
Qed.

Lemma autolinkStep_fold excluded ms :
  forall acc h, In h (fold_left (autolinkStep excluded) ms acc) <->
    In h acc \/
    exists m, In m ms /\ h = rangeOf m
              /\ (test looksLikeUrlRE (default (str "undefined") (group 1 m))
                  || test looksLikeEmailRE (default (str "undefined") (group 1 m))) = true
              /\ isInsideExcluded (start h) (end_ h) excluded = false.
Proof.
  intros acc h. split.
  - revert acc. induction ms as [|m ms IH]; intros acc H; cbn [fold_left] in H; [now left|].
    apply IH in H as [H|(m' & H1 & H2)].
    + unfold autolinkStep in H.
      destruct (_ || _) eqn:E1; [|now left].
      destruct (isInsideExcluded (start (rangeOf m)) (end_ (rangeOf m)) excluded) eqn:E2;
        cbn [andb negb] in H; [now left|].
      apply in_app_or in H as [H|[<-|[]]]; [now left|].
      right. exists m. split; [now left|]. auto.
    + right. exists m'. split; [now right|]. assumption.
  - revert acc.
    induction ms as [|m ms IH]; intros acc [H|(m' & Hm' & Hh & Hb & Hx)]; cbn [fold_left].
    + assumption.
    + destruct Hm'.
    + apply IH. left. unfold autolinkStep.
      destruct (_ && _); [|assumption]. apply in_or_app. now left.
    + destruct Hm' as [->|Hm'].
      * apply IH. left. unfold autolinkStep. rewrite Hb.
        subst h. cbn [start end_ rangeOf] in Hx. cbn [start end_ rangeOf]. rewrite Hx.
        apply in_or_app. right. now left.
      * apply IH. right. eauto 6.
Qed.

(** The kept hits are exactly the spans of the matches that pass the tests
    of their loop. *)
Lemma keptHits_iff markdown h :
  In h (keptHits markdown) <->
  isInsideExcluded (start h) (end_ h) (excludedRanges markdown) = false
  /\ exists m, h = rangeOf m /\
       ((In m (matchAll inlineLinkRE markdown) /\ startsWith (ch "!") (text m) = false)
        \/ (In m (matchAll refLinkRE markdown) /\ startsWith (ch "!") (text m) = false)
        \/ (In m (matchAll autolinkRE markdown)
            /\ (test looksLikeUrlRE (default (str "undefined") (group 1 m))
                || test looksLikeEmailRE (default (str "undefined") (group 1 m))) = true)).
Proof.
  unfold keptHits, collectHits. rewrite sortHits_In.
  rewrite autolinkStep_fold, !linkStep_fold. cbn [In]. split.
  - intros [[[[]|H]|H]|H].
    + destruct H as (m & H1 & H2 & H3 & H4). split; [assumption|]. exists m. tauto.
    + destruct H as (m & H1 & H2 & H3 & H4). split; [assumption|]. exists m. tauto.
    + destruct H as (m & H1 & H2 & H3 & H4). split; [assumption|]. exists m. tauto.
  - intros (Hx & m & Hh & [[H1 H2]|[[H1 H2]|[H1 H2]]]).
    + left. left. right. exists m; auto.
    + left. right. exists m; auto.
    + right. exists m; auto.
Qed.

(** Hits with the same start keep the order they were collected in. *)
Lemma insertHit_filter s h l :
  List.filter (fun x => start x =? s) (insertHit h l)
  = (if start h =? s then [h] else []) ++ List.filter (fun x => start x =? s) l.
Proof.
  induction l as [|x l IH]; cbn [insertHit List.filter].
  - now destruct (start h =? s).
  - destruct (start h <=? start x) eqn:E.
    + cbn [List.filter]. now destruct (start h =? s).
    + cbn [List.filter]. rewrite IH. apply Nat.leb_gt in E.
      destruct (start h =? s) eqn:Eh; [|reflexivity].
      apply Nat.eqb_eq in Eh.
      destruct (start x =? s) eqn:Ex; [|reflexivity].
      apply Nat.eqb_eq in Ex. lia.
Qed.

Lemma sortHits_stable s l :
  List.filter (fun x => start x =? s) (sortHits l) = List.filter (fun x => start x =? s) l.
Proof.
  induction l as [|h l IH]; cbn [sortHits List.filter]; [reflexivity|].
  rewrite insertHit_filter, IH. now destruct (start h =? s).
Qed.

End KeptHitsFacts.

Section TitleFacts.

Lemma noneOf_count_trim c l s :
  In c l -> Forall (fun x => noneOf l x = true) s -> countChar c (trim s) = 0.
Proof.
  intros Hc H. pose proof (countChar_trim c s). rewrite (noneOf_count c l s Hc H) in *. lia.
Qed.

Lemma inlineLinkRe_title sn rs m :
  matchAt inlineLinkRe sn rs = Some m ->
  countChar (ch "]") (trim (default [] (group 1 m))) = 0.
Proof.
  intros H. apply matchAt_sound in H as (st' & H & _ & Hg).
  unfold group. rewrite Hg. clear Hg.
  unfold inlineLinkRe in H. unfold_matches H. break_matches; subst; chase_captures.
  - cbn [getCapture Nat.eqb]. change (default [] (Some ?g)) with g.
    eapply noneOf_count_trim; [|eassumption]. now left.
  - reflexivity.
Qed.

Lemma refLinkRe_title sn rs m :
  matchAt refLinkRe sn rs = Some m ->
  countChar (ch "]") (trim (default [] (group 1 m))) = 0.
Proof.
  intros H. apply matchAt_sound in H as (st' & H & _ & Hg).
  unfold group. rewrite Hg. clear Hg.
  unfold refLinkRe in H. unfold_matches H. break_matches; subst; chase_captures.
  - cbn [getCapture Nat.eqb]. change (default [] (Some ?g)) with g.
    eapply noneOf_count_trim; [|eassumption]. now left.
  - reflexivity.
Qed.

Lemma countChar_filter c p s : countChar c (List.filter p s) <= countChar c s.
Proof.
  induction s as [|x s IH]; [apply Nat.le_refl|]. cbn [List.filter].
  destruct (p x); rewrite ?countChar_cons; lia.
Qed.

Lemma countChar_splitWsFirst c s : countChar c (splitWsFirst s) <= countChar c s.
Proof.
  destruct (splitWsFirst_spec s) as [_ [post E]].
  rewrite E at 2. rewrite countChar_app. lia.
Qed.

(** The URL of a target is made of characters of the target. *)
Lemma inlineUrl_count c inside : countChar c (inlineUrl inside) <= countChar c inside.
Proof.
  unfold inlineUrl.
  assert (Hrem : countChar c (trim (removeAngles inside)) <= countChar c inside).
  { etransitivity; [apply countChar_trim|apply countChar_filter]. }
  destruct (startsWith _ inside).
  - destruct (indexOf _ inside) as [gt|]; [|exact Hrem].
    destruct (0 <? gt); [|exact Hrem].
    etransitivity; [apply countChar_trim|]. unfold slice.
    etransitivity; [apply countChar_firstn|apply countChar_skipn].
  - etransitivity; [apply countChar_trim|apply countChar_splitWsFirst].
Qed.

Lemma inlineCodeRE_shape sn rs m :
  matchAt inlineCodeRE sn rs = Some m ->
  exists code, text m = ch "`" :: code ++ [ch "`"]
               /\ countChar (ch "`") code = 0 /\ countChar 10%N code = 0.
Proof.
  intros H. apply matchAt_sound in H as (st' & H & _).
  unfold inlineCodeRE in H. unfold_matches H. break_matches; subst.
  match goal with
  | H : text m = [ch "`"] ++ ?code ++ [ch "`"] |- _ => exists code; rewrite H
  end.
  split; [reflexivity|].
  split; eapply noneOf_count; try eassumption; cbn; auto.
Qed.

End TitleFacts.

Section HarvestLoop.
Variable toLowerCase : jsstring -> jsstring.

Lemma harvest_loop markdown :
  execLoop refDefRe (defBody toLowerCase) 0 [] markdown ∅
  = Ok (harvested toLowerCase markdown).
Proof.
  rewrite (execLoop_scanAll _ _ _ minLength_refDefRe).
  rewrite (foldBodies_pure _ (harvestStep toLowerCase))
    by (intros m Hm s; now apply (defBody_ok toLowerCase markdown)).
  reflexivity.
Qed.

End HarvestLoop.

Section ExclusionOrigins.

Lemma pushUnlessExcluded_origin ms :
  forall acc r, In r (fold_left (fun ex m => pushUnlessExcluded ex ex m) ms acc) ->
    In r acc \/ exists m, In m ms /\ r = rangeOf m
                          /\ isInsideExcluded (start r) (end_ r) acc = false.
Proof.
  induction ms as [|m ms IH]; intros acc r H; cbn [fold_left] in H; [now left|].
  apply IH in H as [H|(m' & H1 & H2 & H3)].
  - unfold pushUnlessExcluded in H.
    destruct (isInsideExcluded (start (rangeOf m)) (end_ (rangeOf m)) acc) eqn:E;
      cbn [negb] in H; [now left|].
    apply in_app_or in H as [H|[<-|[]]]; [now left|].
    right. exists m. split; [now left|]. auto.
  - right. exists m'. split; [now right|]. split; [assumption|].
    unfold pushUnlessExcluded in H3. destruct (negb _); [|assumption].
    rewrite isInsideExcluded_app in H3. now apply orb_false_iff in H3 as [H3 _].
Qed.

(** The exclusion spans are exactly the spans of the fence matches, of the
    definition-line matches, and of the inline-code matches that touch no
    fence span. *)
Lemma excludedRanges_iff markdown r :
  In r (excludedRanges markdown) <->
  exists m, r = rangeOf m
    /\ (In m (matchAll fencedRE markdown)
        \/ In m (matchAll defLineRE markdown)
        \/ (In m (matchAll inlineCodeRE markdown)
            /\ isInsideExcluded (start r) (end_ r) (fencedRanges markdown) = false)).
Proof.
  split.
  - unfold excludedRanges, withDefLines, withInlineCode. rewrite pushRange_In.
    intros [H|(m & H1 & H2)]; [|eauto 6].
    apply pushUnlessExcluded_origin in H as [H|(m & H1 & H2 & H3)]; [|eauto 8].
    unfold fencedRanges in H. apply pushRange_In in H as [[]|(m & H1 & H2)]. eauto 6.
  - intros (m & -> & H). now apply excludedRanges_complete.
Qed.

Lemma schemeChar_not_gt c : schemeChar c = true -> N.eqb (ch ">") c = false.
Proof.
  intros H. destruct (N.eqb (ch ">") c) eqn:E; [|reflexivity].
  apply N.eqb_eq in E. subst c. vm_compute in H. discriminate H.
Qed.

Lemma countChar_none c s :
  Forall (fun x => N.eqb c x = false) s -> countChar c s = 0.
Proof.
  intros H. induction H as [|x s Hx _ IH]; [reflexivity|].
  now rewrite countChar_cons, Hx, IH.
Qed.

Lemma autolinkRe_inner sn rs m :
  matchAt autolinkRe sn rs = Some m ->
  countChar (ch ">") (default [] (group 1 m)) = 0.
Proof.
  intros H. apply matchAt_sound in H as (st' & H & _ & Hg).
  unfold group. rewrite Hg. clear Hg.
  unfold autolinkRe in H. unfold_matches H. break_matches; subst. chase_captures.
  cbn [getCapture Nat.eqb]. change (default [] (Some ?g)) with g.
  apply countChar_none. repeat (apply Forall_app; split).
  - constructor; [|constructor]. now apply schemeChar_not_gt, isAsciiLetter_scheme.
  - eapply List.Forall_impl; [|eassumption]. intros c Hc. now apply schemeChar_not_gt.
  - constructor; [reflexivity|constructor].
  - eapply List.Forall_impl; [|eassumption]. cbv beta. intros c Hc.
    apply negb_true_iff, orb_false_iff in Hc. rewrite N.eqb_sym. tauto.
Qed.

End ExclusionOrigins.

(** ** Further facts: the text of a bracket link of the extractor *)

Section BracketLinkText.

Lemma notPrecededBy_last c pre :
  startsWith c (rev pre) = false -> forall pre', pre <> pre' ++ [c].
Proof.
  intros H pre' ->. rewrite rev_app_distr in H. cbn in H.
  now rewrite N.eqb_refl in H.
Qed.

Lemma notPrecededBy_startsWith c sn rs cs :
  notPrecededBy c (MState sn rs cs) = true -> startsWith c sn = false.
Proof.
  unfold notPrecededBy. cbn [seen]. destruct sn as [|x sn]; [reflexivity|].
  cbn [startsWith]. now rewrite negb_true_iff.
Qed.

Lemma inlineLinkRe_link sn rs m :
  matchAt inlineLinkRe sn rs = Some m -> group 3 m = None ->
  exists t inside,
    group 1 m = Some t /\ group 2 m = Some inside
    /\ text m = ch "[" :: t ++ ch "]" :: ch "(" :: inside ++ [ch ")"]
    /\ countChar (ch "]") t = 0 /\ countChar (ch ")") inside = 0
    /\ startsWith (ch "!") sn = false.
Proof.
  intros H. apply matchAt_sound in H as (st' & H & _ & Hg).
  unfold group. rewrite Hg. clear Hg.
  unfold inlineLinkRe in H. unfold_matches H. break_matches; subst; chase_captures.
  - intros _.
    match goal with
    | H : text m = [] ++ [ch "["] ++ ?t ++ [ch "]"] ++ [ch "("] ++ ?i ++ [ch ")"] |- _ =>
        exists t, i; rewrite H
    end.
    cbn [getCapture Nat.eqb].
    split; [reflexivity|]. split; [reflexivity|]. split; [reflexivity|].
    split; [eapply noneOf_count; [|eassumption]; now left|].
    split; [eapply noneOf_count; [|eassumption]; now left|].
    eapply notPrecededBy_startsWith. eassumption.
  - cbn [getCapture Nat.eqb]. discriminate.
Qed.

Lemma refLinkRe_link sn rs m :
  matchAt refLinkRe sn rs = Some m -> group 3 m = None ->
  exists t id,
    group 1 m = Some t /\ group 2 m = Some id
    /\ text m = ch "[" :: t ++ ch "]" :: ch "[" :: id ++ [ch "]"]
    /\ countChar (ch "]") t = 0 /\ countChar (ch "]") id = 0
    /\ countChar 10%N id = 0
    /\ startsWith (ch "!") sn = false.
Proof.
  intros H. apply matchAt_sound in H as (st' & H & _ & Hg).
  unfold group. rewrite Hg. clear Hg.
  unfold refLinkRe in H. unfold_matches H. break_matches; subst; chase_captures.
  - intros _.
    match goal with
    | H : text m = [] ++ [ch "["] ++ ?t ++ [ch "]"] ++ [ch "["] ++ ?i ++ [ch "]"] |- _ =>
        exists t, i; rewrite H
    end.
    cbn [getCapture Nat.eqb].
    split; [reflexivity|]. split; [reflexivity|]. split; [reflexivity|].
    split; [eapply noneOf_count; [|eassumption]; now left|].
    split; [eapply noneOf_count; [|eassumption]; now left|].
    split; [eapply noneOf_count; [|eassumption]; cbn; auto|].
    eapply notPrecededBy_startsWith. eassumption.
  - cbn [getCapture Nat.eqb]. discriminate.
Qed.

End BracketLinkText.

(** ** Further properties of the extractor *)

(** X1: every pair the extractor returns has a trimmed title and a trimmed
    URL (no white space at either end), and its title contains no [']']. *)
Theorem extracted_pairs_trimmed (toLowerCase : jsstring -> jsstring) (markdown : jsstring) :
  exists results,
    extractMarkdownLinks toLowerCase markdown = Ok results
    /\ Forall (fun x => trim (title x) = title x /\ trim (url x) = url x
                        /\ countChar (ch "]") (title x) = 0) results.
Proof.
  eexists. split; [apply extract_reading|].
  apply List.Forall_forall. intros x Hx.
  unfold inlineOccurrences, autolinkOccurrences, refOccurrences in Hx.
  rewrite !map_app, !located_links, !in_app_iff, !in_flat_map in Hx.
  destruct Hx as [(m & Hm & Hx)|[(m & Hm & Hx)|(m & Hm & Hx)]].
  - apply matchAll_In in Hm as (pre & post & _ & _ & Hm).
    unfold inlineOccurrence in Hx. destruct (group 3 m); [destruct Hx|].
    apply push_In in Hx as [-> ->].
    rewrite trim_idem, inlineUrl_trimmed. eauto using inlineLinkRe_title.
  - unfold autolinkOccurrence in Hx. apply push_In in Hx as [-> ->].
    rewrite trim_idem. repeat split.
  - apply matchAll_In in Hm as (pre & post & _ & _ & Hm).
    unfold refOccurrence in Hx. destruct (group 3 m); [destruct Hx|].
    apply push_In in Hx as [-> ->]. rewrite trim_idem.
    split; [reflexivity|]. split; [|eauto using refLinkRe_title].
    destruct (harvested toLowerCase markdown !! refLinkId toLowerCase m) as [v|] eqn:E;
      [|reflexivity].
    apply harvested_origin in E as (d & _ & _ & <-).
    change (default [] (Some (defUrl d))) with (defUrl d). apply trim_idem.
Qed.

(** X2: the autolink pass contributes the pairs that follow the inline
    ones in the result; each has an empty title, and its URL is the text
    between a ['<'] and a ['>'] of the document at the offset of the match:
    it has no white space and no ['>'], and it contains a [':']. *)
Theorem autolink_pairs_shape (toLowerCase : jsstring -> jsstring) (markdown : jsstring) :
  (exists before after,
      extractMarkdownLinks toLowerCase markdown
      = Ok (before ++ map snd (autolinkOccurrences markdown) ++ after))
  /\ forall o x,
       In (o, x) (autolinkOccurrences markdown) ->
       title x = []
       /\ slice markdown o (o + (length (url x) + 2)) = ch "<" :: url x ++ [ch ">"]
       /\ noWhiteSpace (url x)
       /\ countChar (ch ">") (url x) = 0
       /\ 1 <= countChar (ch ":") (url x).
Proof.
  split.
  - exists (map snd (inlineOccurrences markdown)),
           (map snd (refOccurrences toLowerCase markdown)).
    rewrite extract_reading. now rewrite !map_app.
  - intros o x H. unfold autolinkOccurrences in H.
    apply located_In in H as (m & Hm & <- & Hx).
    pose proof (matchAll_text _ _ _ Hm) as Ht.
    apply matchAll_In in Hm as (pre & post & _ & _ & Hm).
    pose proof (autolinkRe_inner _ _ _ Hm) as Hgt.
    apply autolinkRe_shape in Hm as (g & Eg & Et & Hws & Hc).
    unfold autolinkOccurrence in Hx. rewrite Eg in Hx, Hgt.
    change (default [] (Some g)) with g in Hx, Hgt.
    rewrite (trim_noWhiteSpace _ Hws) in Hx. apply push_In in Hx as [-> ->].
    split; [reflexivity|]. split; [|auto].
    rewrite <- Et, <- Ht. unfold matchEnd. rewrite Et. do 2 f_equal.
    cbn [length]. rewrite length_app. cbn [length]. lia.
Qed.

Lemma autolink_pairs_shape_witness :
  In (4, {| title := []; url := str "https://a.test/y" |})
     (autolinkOccurrences (str "See <https://a.test/y>."))
  /\ slice (str "See <https://a.test/y>.") 4 (4 + (16 + 2)) = str "<https://a.test/y>"
  /\ countChar (ch ">") (str "https://a.test/y") = 0.
Proof.
  assert (H : In (4, {| title := []; url := str "https://a.test/y" |})
                (autolinkOccurrences (str "See <https://a.test/y>.")))
    by (vm_compute; now left).
  split; [exact H|].
  destruct (proj2 (autolink_pairs_shape asciiLower _) _ _ H) as (_ & H2 & _ & H4 & _).
  split; [exact H2|exact H4].
Defined.

(** X3: the reference pass contributes the last pairs of the result; each
    comes from a match of the reference pattern that is not an image and
    from a definition line of the document whose lower-cased, trimmed id
    is the id of the link (its text when the id is empty); its URL is the
    one of that definition line, with no white space and no ['>'], and its
    title is the trimmed text of the link. *)
Theorem reference_pairs_resolved (toLowerCase : jsstring -> jsstring) (markdown : jsstring) :
  (exists before,
      extractMarkdownLinks toLowerCase markdown
      = Ok (before ++ map snd (refOccurrences toLowerCase markdown)))
  /\ forall o x,
       In (o, x) (refOccurrences toLowerCase markdown) ->
       exists m d,
         In m (matchAll refLinkRe markdown) /\ index m = o /\ group 3 m = None
         /\ In d (matchAll refDefRe markdown)
         /\ defKey toLowerCase d = refLinkId toLowerCase m
         /\ url x = defUrl d
         /\ title x = trim (default [] (group 1 m))
         /\ noWhiteSpace (url x) /\ countChar (ch ">") (url x) = 0.
Proof.
  split.
  - exists (map snd (inlineOccurrences markdown ++ autolinkOccurrences markdown)).
    rewrite extract_reading. now rewrite !map_app, <- app_assoc.
  - intros o x H. unfold refOccurrences in H.
    apply located_In in H as (m & Hm & <- & Hx).
    unfold refOccurrence in Hx. destruct (group 3 m) eqn:E3; [destruct Hx|].
    pose proof (push_url _ _ _ Hx) as Hne. apply push_In in Hx as [Ht Hu].
    destruct (harvested toLowerCase markdown !! refLinkId toLowerCase m) as [v|] eqn:E;
      [|exfalso; apply Hne; exact Hu].
    change (default [] (Some v)) with v in Hu. subst v.
    apply harvested_origin in E as (d & Hd & Hk & Hv).
    destruct (defUrl_clean _ _ Hd) as (_ & Hws & Hgt).
    exists m, d. rewrite <- Hv. auto 10.
Qed.

Lemma reference_pairs_resolved_witness :
  In (0, {| title := str "Ref"; url := str "https://a.test/z" |})
     (refOccurrences asciiLower (str "[Ref][1]" ++ [10; 10]%N ++ str "[1]: https://a.test/z"))
  /\ exists m d,
       In m (matchAll refLinkRe (str "[Ref][1]" ++ [10; 10]%N ++ str "[1]: https://a.test/z"))
       /\ In d (matchAll refDefRe (str "[Ref][1]" ++ [10; 10]%N ++ str "[1]: https://a.test/z"))
       /\ defKey asciiLower d = refLinkId asciiLower m
       /\ str "https://a.test/z" = defUrl d.
Proof.
  assert (H : In (0, {| title := str "Ref"; url := str "https://a.test/z" |})
                (refOccurrences asciiLower
                   (str "[Ref][1]" ++ [10; 10]%N ++ str "[1]: https://a.test/z")))
    by (vm_compute; now left).
  split; [exact H|].
  destruct (proj2 (reference_pairs_resolved asciiLower _) _ _ H)
    as (m & d & H1 & _ & _ & H4 & H5 & H6 & _).
  exists m, d. auto.
Defined.

(** X4: the definition loop ends with the lookup [harvested]; in it the
    last definition line of an id wins, an id no definition line declares
    is missing, and every entry comes from a definition line of the
    document and holds a non-empty URL. *)
Theorem definitions_last_wins (toLowerCase : jsstring -> jsstring) (markdown : jsstring) :
  execLoop refDefRe (defBody toLowerCase) 0 [] markdown ∅
  = Ok (harvested toLowerCase markdown)
  /\ (forall ms1 d ms2,
        matchAll refDefRe markdown = ms1 ++ d :: ms2 ->
        (forall d', In d' ms2 -> defKey toLowerCase d' <> defKey toLowerCase d) ->
        harvested toLowerCase markdown !! defKey toLowerCase d = Some (defUrl d))
  /\ (forall k,
        (forall d, In d (matchAll refDefRe markdown) -> defKey toLowerCase d <> k) ->
        harvested toLowerCase markdown !! k = None)
  /\ (forall k v,
        harvested toLowerCase markdown !! k = Some v ->
        v <> [] /\ exists d, In d (matchAll refDefRe markdown)
                             /\ defKey toLowerCase d = k /\ defUrl d = v).
Proof.
  split; [apply harvest_loop|].
  split; [exact (harvested_last_wins toLowerCase markdown)|].
  split; [exact (harvested_missing toLowerCase markdown)|].
  intros k v H. apply harvested_origin in H as (d & Hd & Hk & Hv).
  split; [|eauto]. rewrite <- Hv. now apply (defUrl_clean markdown).
Qed.

Lemma definitions_last_wins_witness :
  matchAll refDefRe (str "[a]: x" ++ [10%N] ++ str "[A]: y")
  = [ RMatch 0 (str "[a]: x") [(2, str "x"); (1, str "a")] ]
    ++ RMatch 7 (str "[A]: y") [(2, str "y"); (1, str "A")] :: []
  /\ harvested asciiLower (str "[a]: x" ++ [10%N] ++ str "[A]: y") !! str "a"
     = Some (str "y").
Proof.
  assert (H : matchAll refDefRe (str "[a]: x" ++ [10%N] ++ str "[A]: y")
              = [ RMatch 0 (str "[a]: x") [(2, str "x"); (1, str "a")] ]
                ++ RMatch 7 (str "[A]: y") [(2, str "y"); (1, str "A")] :: [])
    by (vm_compute; reflexivity).
  split; [exact H|].
  exact (proj1 (proj2 (definitions_last_wins asciiLower _)) _ _ _ H
           (fun d' Hd' => match Hd' with end)).
Defined.

(** X5: the URL of an inline target.  When the target opens with ['<'],
    the URL is the trimmed text up to the first ['>'], or, with no ['>'],
    the trimmed target with its ['<'] removed.  Otherwise it is the
    target up to its first white-space character, so it has no white
    space.  In every case its characters are characters of the target. *)
Theorem inline_url_cases :
  (forall u rest,
      countChar (ch ">") u = 0 ->
      inlineUrl (ch "<" :: u ++ ch ">" :: rest) = trim u)
  /\ (forall u,
        countChar (ch ">") u = 0 ->
        inlineUrl (ch "<" :: u) = trim (removeAngles u))
  /\ (forall inside,
        startsWith (ch "<") inside = false ->
        noWhiteSpace (inlineUrl inside)
        /\ exists post,
             inside = inlineUrl inside ++ post
             /\ (post = [] \/ exists c post', post = c :: post' /\ isWhiteSpace c = true))
  /\ (forall c inside, countChar c (inlineUrl inside) <= countChar c inside).
Proof.
  split; [exact inlineUrl_angle|]. split; [exact inlineUrl_angle_open|].
  split; [|exact inlineUrl_count].
  intros inside H. rewrite (inlineUrl_plain _ H).
  destruct (splitWsFirst_spec inside) as [Hws [post E]].
  split; [assumption|]. exists post. split; [assumption|].
  now apply (splitWsFirst_stops inside).
Qed.

Lemma inline_url_cases_witness :
  countChar (ch ">") (str "x y") = 0
  /\ inlineUrl (str "<x y> t") = str "x y"
  /\ startsWith (ch "<") (str "u t") = false
  /\ noWhiteSpace (inlineUrl (str "u t")).
Proof.
  destruct inline_url_cases as (H1 & _ & H3 & _).
  split; [reflexivity|]. split.
  - exact (H1 (str "x y") (str " t") eq_refl).
  - split; [reflexivity|]. exact (proj1 (H3 (str "u t") eq_refl)).
Defined.

(** ** Further properties of the rewriter *)

(** X6: the hits that get a marker are the collected hits in another
    order: sorted by start, with hits of the same start left in the order
    they were collected in; each is a non-empty span of the document. *)
Theorem kept_hits_sorted (markdown : jsstring) :
  Permutation (keptHits markdown) (collectHits markdown (excludedRanges markdown))
  /\ (forall i j a b,
        i < j -> nth_error (keptHits markdown) i = Some a ->
        nth_error (keptHits markdown) j = Some b -> start a <= start b)
  /\ (forall s,
        List.filter (fun h => start h =? s) (keptHits markdown)
        = List.filter (fun h => start h =? s)
            (collectHits markdown (excludedRanges markdown)))
  /\ (forall h, In h (keptHits markdown) -> start h < end_ h /\ end_ h <= length markdown).
Proof.
  split; [apply sortHits_perm|]. split.
  - intros i j a b. apply sortedFrom_ordered with (lo := 0). apply sortHits_sorted.
  - split; [intros s; apply sortHits_stable|].
    intros h H. split; [now apply (keptHits_nonempty markdown)|now apply (keptHits_bounds markdown)].
Qed.

Lemma kept_hits_sorted_witness :
  keptHits (str "<a@b.c> [x](y)") = [ {| start := 0; end_ := 7 |}; {| start := 8; end_ := 14 |} ]
  /\ collectHits (str "<a@b.c> [x](y)") (excludedRanges (str "<a@b.c> [x](y)"))
     = [ {| start := 8; end_ := 14 |}; {| start := 0; end_ := 7 |} ]
  /\ 0 <= 8.
Proof.
  assert (H : keptHits (str "<a@b.c> [x](y)")
              = [ {| start := 0; end_ := 7 |}; {| start := 8; end_ := 14 |} ])
    by (vm_compute; reflexivity).
  split; [exact H|]. split; [vm_compute; reflexivity|].
  refine (proj1 (proj2 (kept_hits_sorted (str "<a@b.c> [x](y)")))
            0 1 {| start := 0; end_ := 7 |} {| start := 8; end_ := 14 |} _ _ _).
  - lia.
  - rewrite H. reflexivity.
  - rewrite H. reflexivity.
Defined.

(** X7: a span gets a marker exactly when it touches no exclusion span and
    is the span of a match of the inline or of the reference pattern whose
    text does not start with ['!'], or of a match of the autolink pattern
    whose inner text passes the URL test or the e-mail test. *)
Theorem kept_hits_exactly (markdown : jsstring) (h : Hit) :
  In h (keptHits markdown) <->
  isInsideExcluded (start h) (end_ h) (excludedRanges markdown) = false
  /\ exists m, h = rangeOf m /\
       ((In m (matchAll inlineLinkRE markdown) /\ startsWith (ch "!") (text m) = false)
        \/ (In m (matchAll refLinkRE markdown) /\ startsWith (ch "!") (text m) = false)
        \/ (In m (matchAll autolinkRE markdown)
            /\ (test looksLikeUrlRE (default (str "undefined") (group 1 m))
                || test looksLikeEmailRE (default (str "undefined") (group 1 m))) = true)).
Proof. apply keptHits_iff. Qed.

(** X8: the text a marker replaces is bracketed: it starts with ['['] and
    ends with [')'] or [']'], or it is [<...>] with a [':'] or an ['@']
    between the brackets; so it never starts with ['!'], and a tag such as
    [<br>] is never replaced. *)
Theorem kept_hit_text (markdown : jsstring) (h : Hit) :
  In h (keptHits markdown) ->
  exists inner,
    spanText markdown h = ch "[" :: inner ++ [ch ")"]
    \/ spanText markdown h = ch "[" :: inner ++ [ch "]"]
    \/ (spanText markdown h = ch "<" :: inner ++ [ch ">"]
        /\ (1 <= countChar (ch ":") inner \/ 1 <= countChar (ch "@") inner)).
Proof. apply keptHits_text. Qed.

Lemma kept_hit_text_witness :
  In {| start := 5; end_ := 12 |} (keptHits (str "<br> <a@b.c> x"))
  /\ keptHits (str "<br> <a@b.c> x") = [ {| start := 5; end_ := 12 |} ]
  /\ exists inner,
       spanText (str "<br> <a@b.c> x") {| start := 5; end_ := 12 |} = ch "[" :: inner ++ [ch ")"]
       \/ spanText (str "<br> <a@b.c> x") {| start := 5; end_ := 12 |} = ch "[" :: inner ++ [ch "]"]
       \/ (spanText (str "<br> <a@b.c> x") {| start := 5; end_ := 12 |}
           = ch "<" :: inner ++ [ch ">"]
           /\ (1 <= countChar (ch ":") inner \/ 1 <= countChar (ch "@") inner)).
Proof.
  assert (H : In {| start := 5; end_ := 12 |} (keptHits (str "<br> <a@b.c> x")))
    by (vm_compute; now left).
  split; [exact H|]. split; [vm_compute; reflexivity|].
  exact (kept_hit_text _ _ H).
Defined.

(** X9: the overlap test is symmetric; for two non-empty spans it holds
    exactly when they share an offset; and a span passes
    [isInsideExcluded] exactly when each exclusion span ends at or before
    its start or starts at or after its end. *)
Theorem intersects_shares_offset :
  (forall a b, intersects a b = intersects b a)
  /\ (forall a b,
        start a < end_ a -> start b < end_ b ->
        (intersects a b = true <-> exists p, covers a p /\ covers b p))
  /\ (forall s e excluded,
        isInsideExcluded s e excluded = false
        <-> forall r, In r excluded -> end_ r <= s \/ e <= start r).
Proof.
  split; [exact intersects_sym|]. split; [exact intersects_covers|].
  intros s e excluded. unfold isInsideExcluded. split.
  - intros H r Hr.
    destruct (intersects {| start := s; end_ := e |} r) eqn:E.
    + assert (Ht : existsb (fun r0 => intersects {| start := s; end_ := e |} r0) excluded
                   = true) by (apply existsb_exists; eauto).
      congruence.
    + unfold intersects in E. cbn [start end_] in E.
      apply negb_false_iff, orb_true_iff in E. rewrite !Nat.leb_le in E. tauto.
  - intros H. induction excluded as [|r l IH]; [reflexivity|]. cbn [existsb].
    apply orb_false_iff. split.
    + unfold intersects. cbn [start end_]. apply negb_false_iff, orb_true_iff.
      rewrite !Nat.leb_le. destruct (H r (or_introl eq_refl)); auto.
    + apply IH. intros r' Hr'. apply H. now right.
Qed.

Lemma intersects_shares_offset_witness :
  intersects {| start := 0; end_ := 15 |} {| start := 4; end_ := 14 |} = true
  /\ exists p, covers {| start := 0; end_ := 15 |} p /\ covers {| start := 4; end_ := 14 |} p.
Proof.
  split; [reflexivity|].
  apply (proj1 (proj2 intersects_shares_offset)
           {| start := 0; end_ := 15 |} {| start := 4; end_ := 14 |}).
  - simpl. lia.
  - simpl. lia.
  - reflexivity.
Defined.

(** X10: when no two kept hits intersect, the document is a sequence of
    gaps with the texts of the kept hits between them, and the rewritten
    text is the same gaps, unchanged, with the markers [[1]], [[2]], ...
    between them, in that order. *)
Theorem rewriter_keeps_gaps (markdown : jsstring) :
  PairwiseDisjoint (keptHits markdown) ->
  exists gaps,
    length gaps = S (length (keptHits markdown))
    /\ markdown = interleave gaps (map (spanText markdown) (keptHits markdown))
    /\ replaceMarkdownLinksWithOrder markdown
       = interleave gaps (markersOf 0 (length (keptHits markdown))).
Proof.
  intros Hd. pose proof (keptHits_noOverlap _ Hd) as Hno.
  destruct (weave_interleave markdown (keptHits markdown) 0 0 Hno) as (gaps & Hl & Hm & Hw).
  - intros h Hh. now apply (keptHits_bounds markdown).
  - exists gaps. split; [assumption|]. split; [exact Hm|].
    unfold replaceMarkdownLinksWithOrder. now rewrite buildReplaced_weave.
Qed.

Lemma rewriter_keeps_gaps_witness :
  PairwiseDisjoint (keptHits (str "See [Docs](https://a.test/x) and <https://a.test/y>."))
  /\ exists gaps,
       length gaps = S (length (keptHits (str "See [Docs](https://a.test/x) and <https://a.test/y>.")))
       /\ str "See [Docs](https://a.test/x) and <https://a.test/y>."
          = interleave gaps
              (map (spanText (str "See [Docs](https://a.test/x) and <https://a.test/y>."))
                 (keptHits (str "See [Docs](https://a.test/x) and <https://a.test/y>.")))
       /\ replaceMarkdownLinksWithOrder (str "See [Docs](https://a.test/x) and <https://a.test/y>.")
          = interleave gaps
              (markersOf 0
                 (length (keptHits (str "See [Docs](https://a.test/x) and <https://a.test/y>.")))).
Proof.
  assert (H : PairwiseDisjoint
                (keptHits (str "See [Docs](https://a.test/x) and <https://a.test/y>.")))
    by (vm_compute; repeat constructor).
  split; [exact H|].
  exact (rewriter_keeps_gaps _ H).
Defined.

(** X11: a marker is ['['], one or more decimal digits, [']'], and hits
    with different indices get different markers. *)
Theorem markers_distinct :
  (forall i j, i <> j -> marker i <> marker j)
  /\ (forall i, exists digits,
        marker i = ch "[" :: digits ++ [ch "]"]
        /\ digits <> [] /\ Forall (fun c => isAsciiDigit c = true) digits).
Proof.
  split; [|exact marker_shape].
  intros i j Hij E. apply Hij. now apply marker_inj.
Qed.

Lemma markers_distinct_witness :
  9 <> 10 /\ marker 9 <> marker 10 /\ marker 9 = str "[10]".
Proof.
  assert (H : 9 <> 10) by lia.
  split; [exact H|]. split; [|reflexivity].
  exact (proj1 markers_distinct 9 10 H).
Defined.

(** X12: the exclusion spans are exactly the spans of the matches of the
    fence pattern, of the definition-line pattern, and of those matches of
    the inline-code pattern that touch no fence span; each lies within the
    document, and an inline-code span is a pair of backticks around text
    with no backtick and no line break. *)
Theorem excluded_spans_exactly (markdown : jsstring) :
  (forall r,
      In r (excludedRanges markdown) <->
      exists m, r = rangeOf m
        /\ (In m (matchAll fencedRE markdown)
            \/ In m (matchAll defLineRE markdown)
            \/ (In m (matchAll inlineCodeRE markdown)
                /\ isInsideExcluded (start r) (end_ r) (fencedRanges markdown) = false)))
  /\ (forall r, In r (excludedRanges markdown) ->
        start r <= end_ r /\ end_ r <= length markdown)
  /\ (forall m, In m (matchAll inlineCodeRE markdown) ->
        exists code, spanText markdown (rangeOf m) = ch "`" :: code ++ [ch "`"]
                     /\ countChar (ch "`") code = 0 /\ countChar 10%N code = 0).
Proof.
  split; [intros r; apply excludedRanges_iff|]. split.
  - intros r H. apply excludedRanges_origin in H as (m & -> & H).
    cbn [rangeOf start end_]. split; [lia|].
    destruct H as [H|[H|H]]; apply matchAll_bounds in H; exact H.
  - intros m H. unfold spanText. cbn [rangeOf start end_].
    pose proof (matchAll_text _ _ _ H) as Ht. unfold matchEnd in Ht. rewrite Ht.
    apply matchAll_In in H as (pre & post & _ & _ & H).
    now apply inlineCodeRE_shape in H.
Qed.

Lemma excluded_spans_exactly_witness :
  In {| start := 6; end_ := 14 |} (excludedRanges (str "code: `[x](y)` and real [x](y)"))
  /\ 6 <= 14 /\ 14 <= 30.
Proof.
  assert (H : In {| start := 6; end_ := 14 |}
                (excludedRanges (str "code: `[x](y)` and real [x](y)")))
    by (vm_compute; left; reflexivity).
  split; [exact H|].
  exact (proj1 (proj2 (excluded_spans_exactly _)) _ H).
Defined.

(** ** The two functions on the same document *)

(** X13: the extractor and the rewriter find the same inline links and the
    same reference-style links: their patterns match at the same offsets
    with the same texts, and the extractor's image group took part in a
    match exactly when its text starts with ['!'], which is the rewriter's
    test for an image. *)
Theorem bracket_links_agree (markdown : jsstring) :
  map span (matchAll inlineLinkRe markdown) = map span (matchAll inlineLinkRE markdown)
  /\ map span (matchAll refLinkRe markdown) = map span (matchAll refLinkRE markdown)
  /\ (forall m, In m (matchAll inlineLinkRe markdown) ->
        (is_Some (group 3 m) <-> startsWith (ch "!") (text m) = true))
  /\ (forall m, In m (matchAll refLinkRe markdown) ->
        (is_Some (group 3 m) <-> startsWith (ch "!") (text m) = true)).
Proof.
  split; [apply inline_spans|]. split; [apply ref_spans|].
  split; intros m H; apply matchAll_In in H as (pre & post & _ & _ & H).
  - apply inlineLinkRe_image in H as [[H1 H2]|[H1 H2]]; rewrite ?H1, H2.
    + split; [intros [? ?]|]; discriminate.
    + tauto.
  - apply refLinkRe_image in H as [[H1 H2]|[H1 H2]]; rewrite ?H1, H2.
    + split; [intros [? ?]|]; discriminate.
    + tauto.
Qed.

Lemma bracket_links_agree_witness :
  In (RMatch 1 (str "![a](b)") [(3, str "a")]) (matchAll inlineLinkRe (str "x![a](b)"))
  /\ map span (matchAll inlineLinkRE (str "x![a](b)")) = [ (1, str "![a](b)") ]
  /\ startsWith (ch "!") (str "![a](b)") = true.
Proof.
  assert (H : In (RMatch 1 (str "![a](b)") [(3, str "a")])
                (matchAll inlineLinkRe (str "x![a](b)")))
    by (vm_compute; now left).
  split; [exact H|]. split; [vm_compute; reflexivity|].
  destruct (bracket_links_agree (str "x![a](b)")) as (_ & _ & H3 & _).
  apply (H3 _ H). cbn. eauto.
Defined.
